(** * ndimage: padding engine, convolution and pixel constructors

    A shallow embedding of the parts of the [ndimage] crate that the padding
    engine ([core/padding.rs]), the convolution engine
    ([processing/kernel.rs]), the image constructors ([core/image2d.rs]) and
    the pixel types ([core/pixel_types.rs], [core/traits.rs]) are built from.

    Modelling conventions.
    - A panic (failed [assert!], [unwrap] on [None]/[Err], an ndarray slice
      or index out of bounds, u32 underflow in a debug build) is [None] in
      the [option] monad below.
    - [u32] coordinates and sizes are [nat]; the [u32] arithmetic that
      sizes buffers (the padded size of [pad_constant], the kernel sizes
      of [Kernel::new], [Kernel::box_] and [Kernel::convolve]) and every
      subtraction are checked ([add32], [mul32], [sub32]), as in a debug
      build. [Rect::right] and [Rect::bottom] overflow when
      [left + width] (resp. [top + height]) reaches [2^32]; [Rect.right]
      and [Rect.bottom] give the value of the other rectangles, and the
      statements that need them not to panic assume
      [left + width < 2^32] and [top + height < 2^32].
    - An image ([Image2DRepr]) is its width, its height and its pixel
      grid, read at [(x, y)] (the ndarray buffer is indexed [[y, x]]).
    - Every loop that writes through a mutable view ([rect_iter_mut],
      [rows_mut], [cols_mut], [fill]) is a list of (position, value)
      writes performed left to right by [assign], built from the same
      iterators, [zip]s and [rev]s as the source. *)

From Stdlib Require Import List Arith Lia Bool ZArith QArith.
Import ListNotations.
Open Scope nat_scope.

(** ** The panic monad *)

Notation "x <- m ;; k" :=
  (match m with Some x => k | None => None end)
    (at level 61, m at next level, right associativity).

(** [u32] subtraction in a debug build: underflow panics. *)
Definition sub32 (a b : nat) : option nat :=
  if b <=? a then Some (a - b) else None.

(** [u32] addition in a debug build: overflow panics. *)
Definition add32 (a b : nat) : option nat :=
  if (Z.of_nat (a + b) <? 2 ^ 32)%Z then Some (a + b) else None.

(** [u32] multiplication in a debug build: overflow panics. *)
Definition mul32 (a b : nat) : option nat :=
  if (Z.of_nat (a * b) <? 2 ^ 32)%Z then Some (a * b) else None.

(** ** Rect ([core/rect.rs]) *)

Module Rect.

Record rect := mk_rect { left : nat; top : nat; width : nat; height : nat }.

(** [Rect::new]: asserts [w != 0 && h != 0]. *)
Definition new (x y w h : nat) : option rect :=
  if (w =? 0) || (h =? 0) then None else Some (mk_rect x y w h).

(** [Rect::right] and [Rect::bottom]: [left + width - 1] in [u32], which
    panics (debug build) when [left + width >= 2^32]; the value here is
    the one of every rectangle below that bound. *)
Definition right (r : rect) : nat := left r + width r - 1.
Definition bottom (r : rect) : nat := top r + height r - 1.
Definition size (r : rect) : nat * nat := (width r, height r).

(** [Rect::intersection]; the inner [Rect::new] gets a width and a height
    of at least 1, so it cannot panic there. *)
Definition intersection (a b : rect) : option rect :=
  let l := Nat.max (left a) (left b) in
  let t := Nat.max (top a) (top b) in
  let rt := Nat.min (right a) (right b) in
  let bt := Nat.min (bottom a) (bottom b) in
  if (l <=? rt) && (t <=? bt)
  then Some (mk_rect l t (rt - l + 1) (bt - t + 1))
  else None.

(** [Rect::fits_image] against an image of the given dimensions. *)
Definition fits_image (r : rect) (w h : nat) : bool :=
  (right r <? w) && (bottom r <? h).

(** Membership of a pixel in the rectangle ([Region::contains] for a
    non-empty rectangle). *)
Definition in_rect (r : rect) (x y : nat) : bool :=
  (left r <=? x) && (x <? left r + width r) &&
  (top r <=? y) && (y <? top r + height r).

(** Positions of the rectangle, one list per row, rows top to bottom and
    pixels left to right (ndarray's standard order of a 2-D slice). *)
Definition rows (r : rect) : list (list (nat * nat)) :=
  map (fun j => map (fun i => (left r + i, top r + j)) (seq 0 (width r)))
      (seq 0 (height r)).

(** Positions of the rectangle, one list per column, columns left to right
    and pixels top to bottom ([axis_iter(Axis(1))]). *)
Definition cols (r : rect) : list (list (nat * nat)) :=
  map (fun i => map (fun j => (left r + i, top r + j)) (seq 0 (height r)))
      (seq 0 (width r)).

(** The positions in scanline order ([rect_iter]). *)
Definition positions (r : rect) : list (nat * nat) := concat (rows r).

(** [Region::contains] for [Rect]. *)
Definition contains (r : rect) (x y : nat) : bool :=
  (left r <=? x) && (top r <=? y) && (x <=? right r) && (y <=? bottom r).

End Rect.

Import Rect (rect, mk_rect).

(** ** Images ([core/image2d.rs]) *)

Section Image.

Variable P : Type.

Record image := mk_image {
  width : nat;
  height : nat;
  pix : nat -> nat -> P
}.

Definition dimensions (img : image) : nat * nat := (width img, height img).

(** [Image2D::get_pixel]: the ndarray index panics out of bounds. *)
Definition get_pixel (img : image) (x y : nat) : option P :=
  if (x <? width img) && (y <? height img) then Some (pix img x y) else None.

(** [Image2D::rect]: [Rect::new(0, 0, width, height)]. *)
Definition img_rect (img : image) : option rect :=
  Rect.new 0 0 (width img) (height img).

(** The bound check of ndarray's [slice]/[slice_mut] with
    [s![top..bottom, left..right]], as used by [rect_iter], [rect_iter_mut],
    [sub_image] and [sub_image_mut]: a range past the axis length panics. *)
Definition slice_ok (img : image) (r : rect) : bool :=
  (Rect.top r + Rect.height r <=? height img) &&
  (Rect.left r + Rect.width r <=? width img).

(** [Image2D::rect_iter]. *)
Definition rect_iter (img : image) (r : rect) : option (list P) :=
  if slice_ok img r
  then Some (map (fun '(x, y) => pix img x y) (Rect.positions r))
  else None.

(** [Image2D::row(y)] and [Image2D::col(x)]. *)
Definition row (img : image) (y : nat) : option (list P) :=
  if y <? height img then Some (map (fun x => pix img x y) (seq 0 (width img)))
  else None.

Definition col (img : image) (x : nat) : option (list P) :=
  if x <? width img then Some (map (fun y => pix img x y) (seq 0 (height img)))
  else None.

(** One write [*dst_pixel = value] through a mutable iterator; the positions
    it reaches come from a bound-checked slice. *)
Definition put (img : image) (q : nat * nat) (v : P) : image :=
  mk_image (width img) (height img)
    (fun x y => if (x =? fst q) && (y =? snd q) then v else pix img x y).

(** A loop of writes, performed in order. *)
Definition assign (img : image) (ws : list ((nat * nat) * P)) : image :=
  fold_left (fun im '(q, v) => put im q v) ws img.

(** [ImageBuffer2D::from_elem(w, h, val)]. *)
Definition from_elem (w h : nat) (v : P) : image := mk_image w h (fun _ _ => v).

(** [Image2DMut::blit_rect]: [Err] on a size mismatch or a rectangle that
    does not fit its image, else
    [for (s, d) in img.rect_iter(src).zip(self.rect_iter_mut(dst)) { *d = s }].
    Every caller [unwrap]s it, so [Err] is [None] here. *)
Definition blit_rect (self : image) (src_rect dst_rect : rect) (src : image)
  : option image :=
  let '(ws, hs) := Rect.size src_rect in
  let '(wd, hd) := Rect.size dst_rect in
  if negb ((ws =? wd) && (hs =? hd)) then None
  else if negb (Rect.fits_image src_rect (width src) (height src)) then None
  else if negb (Rect.fits_image dst_rect (width self) (height self)) then None
  else
    s <- rect_iter src src_rect ;;
    Some (assign self (combine (Rect.positions dst_rect) s)).

(** The pixels row by row, in scanline order (the ndarray buffer in
    standard layout); [concat] of it is the row-major flattening. *)
Definition to_rows (img : image) : list (list P) :=
  map (fun y => map (fun x => pix img x y) (seq 0 (width img))) (seq 0 (height img)).

End Image.

Arguments mk_image {P}.
Arguments width {P}.
Arguments height {P}.
Arguments pix {P}.
Arguments dimensions {P}.
Arguments get_pixel {P}.
Arguments img_rect {P}.
Arguments slice_ok {P}.
Arguments rect_iter {P}.
Arguments row {P}.
Arguments col {P}.
Arguments put {P}.
Arguments assign {P}.
Arguments from_elem {P}.
Arguments blit_rect {P}.
Arguments to_rows {P}.

(** ** The padding engine ([core/padding.rs]) *)

Module Padding.

Section Pad.

Variable P : Type.
(** [P::zero()]. *)
Variable zero : P.

(** [pad_constant]: a [(w + 2 s0) x (h + 2 s1)] buffer filled with [val]
    (the sizes computed in [u32]), the source blitted at [(s0, s1)]. *)
Definition pad_constant (img : image P) (size : nat * nat) (val : P)
  : option (image P) :=
  let '(w, h) := dimensions img in
  d0 <- mul32 2 (fst size) ;;
  pw <- add32 w d0 ;;
  d1 <- mul32 2 (snd size) ;;
  ph <- add32 h d1 ;;
  let padded := from_elem pw ph val in
  r <- Rect.new (fst size) (snd size) w h ;;
  src <- img_rect img ;;
  blit_rect padded src r img.

Definition pad_zeros (img : image P) (size : nat * nat) : option (image P) :=
  pad_constant img size zero.

(** [sub_image_mut(r)] followed by a loop that fills each line of the view
    (a row of [rows_mut] or a column of [cols_mut]) with the value [zip]ped
    with it; [fill] on the whole view is the case of one value per
    position. *)
Definition fill_lines (lines : list (list (nat * nat))) (vals : list P)
  : list ((nat * nat) * P) :=
  concat (map (fun '(line, v) => map (fun q => (q, v)) line) (combine lines vals)).

Definition fill_view (padded : image P) (r : rect)
  (lines : list (list (nat * nat))) (vals : list P) : option (image P) :=
  if slice_ok padded r then Some (assign padded (fill_lines lines vals)) else None.

(** The [fill_corner] closure of [pad_replicate]. *)
Definition fill_corner (padded : image P) (size : nat * nat) (x y : nat) (val : P)
  : option (image P) :=
  r <- Rect.new x y (fst size) (snd size) ;;
  fill_view padded r (map (fun q => [q]) (Rect.positions r))
    (repeat val (length (Rect.positions r))).

Definition pad_replicate (img : image P) (size : nat * nat) : option (image P) :=
  let '(s0, s1) := size in
  padded <- pad_zeros img size ;;
  (* corners *)
  p00 <- get_pixel img 0 0 ;;
  padded <- fill_corner padded size 0 0 p00 ;;
  hm1 <- sub32 (height img) 1 ;;
  p01 <- get_pixel img 0 hm1 ;;
  padded <- fill_corner padded size 0 (height img + s1) p01 ;;
  wm1 <- sub32 (width img) 1 ;;
  p10 <- get_pixel img wm1 0 ;;
  padded <- fill_corner padded size (width img + s0) 0 p10 ;;
  wm1 <- sub32 (width img) 1 ;;
  hm1 <- sub32 (height img) 1 ;;
  p11 <- get_pixel img wm1 hm1 ;;
  padded <- fill_corner padded size (width img + s0) (height img + s1) p11 ;;
  (* top side *)
  inner <- row img 0 ;;
  r <- Rect.new s0 0 (width img) s1 ;;
  padded <- fill_view padded r (Rect.cols r) inner ;;
  (* left side *)
  inner <- col img 0 ;;
  r <- Rect.new 0 s1 s0 (height img) ;;
  padded <- fill_view padded r (Rect.rows r) inner ;;
  (* right side *)
  wm1 <- sub32 (width img) 1 ;;
  inner <- col img wm1 ;;
  r <- Rect.new (width img + s0) s1 s0 (height img) ;;
  padded <- fill_view padded r (Rect.rows r) inner ;;
  (* bottom side: the source passes [size.0] as the strip height *)
  hm1 <- sub32 (height img) 1 ;;
  inner <- row img hm1 ;;
  r <- Rect.new s0 (height img + s1) (width img) s0 ;;
  fill_view padded r (Rect.cols r) inner.

(** The [copy_subimage] closure of [pad_wrap]. *)
Definition copy_subimage (img padded : image P) (src_rect dst_rect : option rect)
  : option (image P) :=
  s <- src_rect ;;
  d <- dst_rect ;;
  blit_rect padded s d img.

Definition pad_wrap (img : image P) (size : nat * nat) : option (image P) :=
  let '(s0, s1) := size in
  let w := width img in
  let h := height img in
  padded <- pad_zeros img size ;;
  padded <- copy_subimage img padded
              (Rect.new 0 0 s0 s1) (Rect.new (w + s0) (h + s1) s0 s1) ;;
  ws0 <- sub32 w s0 ;;
  padded <- copy_subimage img padded
              (Rect.new ws0 0 s0 s1) (Rect.new 0 (h + s1) s0 s1) ;;
  hs1 <- sub32 h s1 ;;
  padded <- copy_subimage img padded
              (Rect.new 0 hs1 s0 s1) (Rect.new (w + s0) 0 s0 s1) ;;
  ws0 <- sub32 w s0 ;;
  hs1 <- sub32 h s1 ;;
  padded <- copy_subimage img padded
              (Rect.new ws0 hs1 s0 s1) (Rect.new 0 0 s0 s1) ;;
  padded <- copy_subimage img padded
              (Rect.new 0 0 w s1) (Rect.new s0 (h + s1) w s1) ;;
  padded <- copy_subimage img padded
              (Rect.new 0 0 s0 h) (Rect.new (w + s0) s1 s0 h) ;;
  ws0 <- sub32 w s0 ;;
  padded <- copy_subimage img padded
              (Rect.new ws0 0 s0 h) (Rect.new 0 s1 s0 h) ;;
  hs1 <- sub32 h s1 ;;
  copy_subimage img padded
    (Rect.new 0 hs1 w s1) (Rect.new s0 0 w s1).

(** The three [copy_and_mirror_subimage_*] closures of [pad_mirror]:
    [for (src_rows, dst_rows) in src.rows().zip(dst.rows_mut()[.rev()])]
    [  for (s, d) in src_rows.zip(dst_rows[.rev()]) { *d = s }]
    over [img.sub_image(src_rect)] and [padded.sub_image_mut(dst_rect)]. *)
Definition mirror_copy (rev_rows rev_cols : bool) (img padded : image P)
  (src_rect dst_rect : option rect) : option (image P) :=
  s <- src_rect ;;
  d <- dst_rect ;;
  if slice_ok img s && slice_ok padded d then
    let drows := if rev_rows then rev (Rect.rows d) else Rect.rows d in
    Some (assign padded
      (concat (map (fun '(sr, dr) =>
                      combine (if rev_cols then rev dr else dr)
                              (map (fun '(x, y) => pix img x y) sr))
                   (combine (Rect.rows s) drows))))
  else None.

Definition copy_and_mirror_subimage_both := mirror_copy true true.
Definition copy_and_mirror_subimage_hor := mirror_copy false true.
Definition copy_and_mirror_subimage_ver := mirror_copy true false.

Definition pad_mirror (img : image P) (size : nat * nat) : option (image P) :=
  let '(s0, s1) := size in
  let w := width img in
  let h := height img in
  padded <- pad_zeros img size ;;
  padded <- copy_and_mirror_subimage_both img padded
              (Rect.new 0 0 s0 s1) (Rect.new 0 0 s0 s1) ;;
  ws0 <- sub32 w s0 ;;
  padded <- copy_and_mirror_subimage_both img padded
              (Rect.new ws0 0 s0 s1) (Rect.new (w + s0) 0 s0 s1) ;;
  hs1 <- sub32 h s1 ;;
  padded <- copy_and_mirror_subimage_both img padded
              (Rect.new 0 hs1 s0 s1) (Rect.new 0 (h + s1) s0 s1) ;;
  ws0 <- sub32 w s0 ;;
  hs1 <- sub32 h s1 ;;
  padded <- copy_and_mirror_subimage_both img padded
              (Rect.new ws0 hs1 s0 s1) (Rect.new (w + s0) (h + s1) s0 s1) ;;
  padded <- copy_and_mirror_subimage_hor img padded
              (Rect.new 0 0 s0 h) (Rect.new 0 s1 s0 h) ;;
  ws0 <- sub32 w s0 ;;
  (* the source passes [size.1] as the width of this source strip *)
  padded <- copy_and_mirror_subimage_hor img padded
              (Rect.new ws0 0 s1 h) (Rect.new (w + s0) s1 s0 h) ;;
  padded <- copy_and_mirror_subimage_ver img padded
              (Rect.new 0 0 w s1) (Rect.new s0 0 w s1) ;;
  hs1 <- sub32 h s1 ;;
  (* and [size.0] as the height of this one *)
  copy_and_mirror_subimage_ver img padded
    (Rect.new 0 hs1 w s0) (Rect.new s0 (h + s1) w s1).

(** [enum Padding<P>] and [Padding::apply]. *)
Inductive padding :=
| Constant (p : P)
| Replicate
| Wrap
| Mirror.

Definition apply (pad : padding) (img : image P) (size : nat * nat) : option (image P) :=
  match pad with
  | Constant p => pad_constant img size p
  | Replicate => pad_replicate img size
  | Wrap => pad_wrap img size
  | Mirror => pad_mirror img size
  end.

End Pad.

Arguments pad_constant {P}.
Arguments pad_zeros {P}.
Arguments pad_replicate {P}.
Arguments pad_wrap {P}.
Arguments pad_mirror {P}.
Arguments Constant {P}.
Arguments Replicate {P}.
Arguments Wrap {P}.
Arguments Mirror {P}.
Arguments apply {P}.

End Padding.

(** ** Pixels ([core/pixel_types.rs], [core/traits.rs]) *)

(** A pixel of the [impl_pixels!] types ([Luma], [LumaA], [Rgb], [RgbA])
    is its array of channels [data : [P; N]], here a list of length [N]. *)
Module Pixel.

Section Pixel.

Variable Subpixel : Type.
(** [<S as Zero>::zero()] for the subpixel type [S]. *)
Variable zero : Subpixel.

(** [for (n, e) in data.iter_mut().zip(s.iter()) { *n = *e; }] *)
Fixpoint zip_assign (data s : list Subpixel) : list Subpixel :=
  match data, s with
  | n :: data', e :: s' => e :: zip_assign data' s'
  | _, _ => data
  end.

(** [Pixel::from_slice] for a pixel type of [n_channels] channels: start
    from [zero()] and copy the zipped elements. *)
Definition from_slice (n_channels : nat) (s : list Subpixel) : list Subpixel :=
  zip_assign (repeat zero n_channels) s.

(** [Pixel::set_to_slice]. *)
Definition set_to_slice (data s : list Subpixel) : list Subpixel := zip_assign data s.

(** [num_traits::clamp], with its [debug_assert!(min <= max)]. *)
Variable le lt : Subpixel -> Subpixel -> bool.

Definition clamp_val (input min max : Subpixel) : Subpixel :=
  if lt input min then min else if lt max input then max else input.

Definition num_clamp (input min max : Subpixel) : option Subpixel :=
  if le min max then Some (clamp_val input min max) else None.

(** [Iterator::count] of [channels_mut().into_iter().map(f)]: the closure
    runs on every channel and its results are dropped. *)
Fixpoint count_map (f : Subpixel -> option Subpixel) (l : list Subpixel) : option nat :=
  match l with
  | [] => Some 0
  | c :: l' => _ <- f c ;; k <- count_map f l' ;; Some (S k)
  end.

(** The provided method [Pixel::clamp(&mut self, low, high)]: returns the
    pixel as it is after the call. *)
Definition clamp (data : list Subpixel) (low high : Subpixel) : option (list Subpixel) :=
  _ <- count_map (fun c => num_clamp c low high) data ;;
  Some data.

End Pixel.

Arguments zip_assign {Subpixel}.
Arguments from_slice {Subpixel}.
Arguments set_to_slice {Subpixel}.
Arguments clamp_val {Subpixel}.
Arguments num_clamp {Subpixel}.
Arguments count_map {Subpixel}.
Arguments clamp {Subpixel}.

End Pixel.

(** ** Results and iterator helpers *)

(** [Result<A, failure::Error>]; the error is not inspected by the claims. *)
Inductive res (A : Type) : Type :=
| Ok (a : A)
| Err.

Arguments Ok {A}.
Arguments Err {A}.

(** Collect a sequence of fallible steps; a panic in any is a panic. *)
Fixpoint list_opt {A : Type} (l : list (option A)) : option (list A) :=
  match l with
  | [] => Some []
  | o :: l' => a <- o ;; rest <- list_opt l' ;; Some (a :: rest)
  end.

Fixpoint fold_opt {A B : Type} (f : A -> B -> option A) (l : list B) (a : A)
  : option A :=
  match l with
  | [] => Some a
  | b :: l' => a' <- f a b ;; fold_opt f l' a'
  end.

Fixpoint chunks_fuel {A : Type} (fuel n : nat) (l : list A) : list (list A) :=
  match fuel with
  | 0 => []
  | S fuel' =>
      match l with
      | [] => []
      | _ => firstn n l :: chunks_fuel fuel' n (skipn n l)
      end
  end.

(** [slice.chunks(n)]: consecutive pieces of length [n], the last one
    possibly shorter; [n = 0] panics. *)
Definition chunks {A : Type} (n : nat) (l : list A) : option (list (list A)) :=
  if n =? 0 then None else Some (chunks_fuel (length l) n l).

(** ** Image constructors ([ImageBuffer2D::from_vec], [from_raw_vec]) *)

Section Constructors.

Variable P : Type.
(** [P::zero()]; it is never read at a position of a [w x h] image. *)
Variable zero : P.

(** [Array2::from_shape_vec((h, w), v)]: an error unless [v] has exactly
    [h * w] elements, read in row-major order. *)
Definition from_shape_vec (h w : nat) (v : list P) : res (image P) :=
  if length v =? h * w
  then Ok (mk_image w h (fun x y => nth (y * w + x) v zero))
  else Err.

Definition from_vec (w h : nat) (v : list P) : res (image P) :=
  from_shape_vec h w v.

End Constructors.

Arguments from_shape_vec {P}.
Arguments from_vec {P}.

Section RawConstructor.

Variable S : Type.
Variable s_zero : S.
(** [P::N_CHANNELS] of the pixel type built. *)
Variable n_channels : nat.

(** [from_raw_vec(w, h, v)]: the number of [chunks(N_CHANNELS)] of [v] is
    compared with [w * h] (a [u32] product), each chunk becomes a pixel by
    [P::from_slice], and the pixels go through [from_shape_vec]. *)
Definition from_raw_vec (w h : nat) (v : list S) : option (res (image (list S))) :=
  pixels_iter <- chunks n_channels v ;;
  wh <- mul32 w h ;;
  if negb (length pixels_iter =? wh) then Some Err
  else
    let v_pixels := map (Pixel.from_slice s_zero n_channels) pixels_iter in
    Some (from_shape_vec (repeat s_zero n_channels) h w v_pixels).

End RawConstructor.

Arguments from_raw_vec {S}.

(** ** Kernels and convolution ([processing/kernel.rs]) *)

Section Convolve.

(** The subpixel type [S] of the source pixels [Ps], the kernel's working
    type [T] and the subpixel type [O] of the output pixels [Po]. *)
Variables S T O : Type.
Variable s_zero : S.
(** [S::min_value()] and [S::max_value()]. *)
Variables s_min s_max : S.
Variable t_zero : T.
Variables t_add t_mul : T -> T -> T.
(** [PartialOrd] on [T]: [<=] and [<]. *)
Variables t_le t_lt : T -> T -> bool.
(** [<T as NumCast>::from::<S>] and [<O as NumCast>::from::<T>]. *)
Variable cast_st : S -> option T.
Variable cast_to : T -> option O.
Variable o_zero : O.
(** [<Ps as Pixel>::N_CHANNELS] and [<Po as Pixel>::N_CHANNELS]. *)
Variable n_channels n_out : nat.
(** [f64_to_float::<T>(1. / f64::from(n))]. *)
Variable f64_recip : nat -> T.

Record kernel := mk_kernel { elems : list T; radius : nat }.

(** [Kernel::new]: [s = (2 radius + 1)^2] computed in [u32]. *)
Definition kernel_new (elems : list T) (radius : nat) : option (res kernel) :=
  s <- mul32 2 radius ;;
  s <- add32 s 1 ;;
  s <- mul32 s s ;;
  if length elems =? s then Some (Ok (mk_kernel elems radius)) else Some Err.

(** [Kernel::box_]: [n] copies of [1/n], [n = (2 radius + 1)^2] computed
    in [u32], then [Kernel::new(v, radius).unwrap()]. *)
Definition box_ (radius : nat) : option kernel :=
  d <- mul32 2 radius ;;
  d <- add32 d 1 ;;
  n <- mul32 d d ;;
  match kernel_new (repeat (f64_recip n) n) radius with
  | Some (Ok k) => Some k
  | _ => None
  end.

(** [Rect::crop_to_image]: intersect with [Rect::new(0, 0, w, h)]. *)
Definition crop_to_image (r : rect) (w h : nat) : option (option rect) :=
  full <- Rect.new 0 0 w h ;;
  Some (Rect.intersection r full).

(** [region_accu.extend(p.channels().map(|c| e times T::from(c).unwrap()))]
    for each [(p, e)] of the zipped window and kernel elements. *)
Definition region_accu (pes : list (list S * T)) : option (list T) :=
  cs <- list_opt (map (fun '(p, e) =>
          list_opt (map (fun c => option_map (t_mul e) (cast_st c)) p)) pes) ;;
  Some (concat cs).

(** [for i in 0..n_channels { pix_accu_t[i] += convolved_pix[i]; }] *)
Definition add_chunk (acc chunk : list T) : option (list T) :=
  list_opt (map (fun i =>
    c <- nth_error chunk i ;; Some (t_add (nth i acc t_zero) c))
    (seq 0 n_channels)).

(** The per-channel sums [pix_accu_t] of output pixel [(x, y)]: the window
    [Rect::new(x, y, d, d).crop_to_image(img).unwrap()] of the padded buffer,
    zipped with the kernel elements, accumulated chunk by chunk. *)
Definition window_sums (k : kernel) (padded : image (list S)) (w h x y : nat)
  : option (list T) :=
  let d := 2 * radius k + 1 in
  r0 <- Rect.new x y d d ;;
  c <- crop_to_image r0 w h ;;
  rect <- c ;;
  window <- rect_iter padded rect ;;
  accu <- region_accu (combine window (elems k)) ;;
  ch <- chunks n_channels accu ;;
  fold_opt add_chunk ch (repeat t_zero n_channels).

(** [O::from(p_t).unwrap_or_else(O::zero)]. *)
Definition cast_or_zero (t : T) : O :=
  match cast_to t with Some o => o | None => o_zero end.

(** [pix_accu_o]: each channel sum clamped into
    [[T::from(S::min_value()), T::from(S::max_value())]] and cast to [O]. *)
Definition to_output (acc : list T) : option (list O) :=
  list_opt (map (fun i =>
    mx <- cast_st s_max ;;
    mn <- cast_st s_min ;;
    p_t <- Pixel.num_clamp t_le t_lt (nth i acc t_zero) mn mx ;;
    Some (cast_or_zero p_t))
    (seq 0 n_channels)).

Definition conv_pixel (k : kernel) (padded : image (list S)) (w h x y : nat)
  : option (list O) :=
  acc <- window_sums k padded w h x y ;;
  o <- to_output acc ;;
  Some (Pixel.from_slice o_zero n_out o).

(** The coordinates visited by [out.enumerate_pixels_mut()]. *)
Definition scan (w h : nat) : list (nat * nat) :=
  concat (map (fun y => map (fun x => (x, y)) (seq 0 w)) (seq 0 h)).

(** [Kernel::convolve]. The source calls [padding.apply(img, self.radius)];
    [Padding::apply] takes the padding size as a pair, so both components
    are the radius here. Then [d = 2 radius + 1], [n_elems = d * d] and
    [n_elems * n_channels] (the capacity of [region_accu]) are computed in
    [u32]; [window_sums] uses the same [d]. The output starts as
    [ImageBuffer2D::new] (zero pixels) and every pixel of it is
    overwritten; the per-pixel buffers are reset at each iteration, so
    each pixel depends only on its coordinates. *)
Definition convolve (k : kernel) (img : image (list S))
  (pad : Padding.padding (list S)) : option (image (list O)) :=
  padded <- Padding.apply (repeat s_zero n_channels) pad img (radius k, radius k) ;;
  d <- mul32 2 (radius k) ;;
  d <- add32 d 1 ;;
  n_elems <- mul32 d d ;;
  _ <- mul32 n_elems n_channels ;;
  let w := width img in
  let h := height img in
  if forallb (fun '(x, y) => match conv_pixel k padded w h x y with Some _ => true | None => false end) (scan w h)
  then Some (mk_image w h (fun x y =>
         match conv_pixel k padded w h x y with
         | Some p => p
         | None => Pixel.from_slice o_zero n_out []
         end))
  else None.

(** Following the spec's words (section 4.5, steps 2 and 3), not the
    source: the sums over the full [(2r+1) x (2r+1)] window of the padded
    buffer whose top-left corner is [(x, y)], paired in row-major order with
    the kernel elements. Used to state claim C1 against [window_sums]. *)
Definition window_sums_full (k : kernel) (padded : image (list S)) (x y : nat)
  : option (list T) :=
  let d := 2 * radius k + 1 in
  window <- rect_iter padded (mk_rect x y d d) ;;
  accu <- region_accu (combine window (elems k)) ;;
  ch <- chunks n_channels accu ;;
  fold_opt add_chunk ch (repeat t_zero n_channels).

Definition conv_pixel_full (k : kernel) (padded : image (list S)) (x y : nat)
  : option (list O) :=
  acc <- window_sums_full k padded x y ;;
  o <- to_output acc ;;
  Some (Pixel.from_slice o_zero n_out o).

End Convolve.

(** ** More of the image API ([core/image2d.rs]) *)

(** [i64] addition in a debug build: overflow panics. *)
Definition i64_add (a b : Z) : option Z :=
  let s := (a + b)%Z in
  if ((- 2 ^ 63 <=? s) && (s <? 2 ^ 63))%Z then Some s else None.

Section ImageApi.

Variable P : Type.

(** [Image2D::translate_rect]: [Some None] is the source's [None]. *)
Definition translate_rect (img : image P) (r : rect) (x y : Z) : option (option rect) :=
  left <- i64_add (Z.of_nat (Rect.left r)) x ;;
  top <- i64_add (Z.of_nat (Rect.top r)) y ;;
  right <- i64_add (Z.of_nat (Rect.right r)) x ;;
  bottom <- i64_add (Z.of_nat (Rect.bottom r)) y ;;
  let w_signed := Z.of_nat (width img) in
  let h_signed := Z.of_nat (height img) in
  if ((left <? w_signed) && (top <? h_signed) && (0 <=? right) && (0 <=? bottom))%Z
  then
    let x_left := if (left <? 0)%Z then 0 else Z.to_nat left in
    let y_top := if (top <? 0)%Z then 0 else Z.to_nat top in
    right1 <- i64_add right 1 ;;
    w <- sub32 (Z.to_nat (Z.min w_signed right1)) x_left ;;
    bottom1 <- i64_add bottom 1 ;;
    h <- sub32 (Z.to_nat (Z.min h_signed bottom1)) y_top ;;
    r' <- Rect.new x_left y_top w h ;;
    Some (Some r')
  else Some None.

(** [Image2D::sub_image]: the view
    [s![top..bottom + 1, left..right + 1]]; ndarray panics on a range
    past the axis length or a decreasing range. *)
Definition sub_image (img : image P) (r : rect) : option (image P) :=
  let t := Rect.top r in
  let b := Rect.bottom r + 1 in
  let l := Rect.left r in
  let rt := Rect.right r + 1 in
  if (t <=? b) && (b <=? height img) && (l <=? rt) && (rt <=? width img)
  then Some (mk_image (rt - l) (b - t) (fun x y => pix img (l + x) (t + y)))
  else None.

(** [Image2DMut::fill_rect]:
    [for pixel in self.rect_iter_mut(rect) { *pixel = value.clone(); }]. *)
Definition fill_rect (img : image P) (r : rect) (value : P) : option (image P) :=
  if slice_ok img r
  then Some (assign img (map (fun q => (q, value)) (Rect.positions r)))
  else None.

(** [Image2DMut::put_pixel]: [self.buffer[[y, x]] = pixel], which panics
    out of bounds. *)
Definition put_pixel (img : image P) (x y : nat) (pixel : P) : option (image P) :=
  if (x <? width img) && (y <? height img) then Some (put img (x, y) pixel) else None.

(** [Image2D::iter]: the pixels in the buffer's logical (row-major)
    order. *)
Definition iter (img : image P) : list P := concat (to_rows img).

(** [PartialEq] on pixels. *)
Variable pixel_eqb : P -> P -> bool.

(** [Iterator::eq]. *)
Fixpoint iter_eq (l1 l2 : list P) : bool :=
  match l1, l2 with
  | [], [] => true
  | a :: l1', b :: l2' => pixel_eqb a b && iter_eq l1' l2'
  | _, _ => false
  end.

(** [PartialEq for Image2DRepr]:
    [self.dimensions() == other.dimensions() && self.iter().eq(other.iter())]. *)
Definition image_eq (a b : image P) : bool :=
  (width a =? width b) && (height a =? height b) && iter_eq (iter a) (iter b).

End ImageApi.

Arguments translate_rect {P}.
Arguments sub_image {P}.
Arguments fill_rect {P}.
Arguments put_pixel {P}.
Arguments iter {P}.
Arguments iter_eq {P}.
Arguments image_eq {P}.

(** ** Pixel methods ([core/pixel_types.rs]) *)

Section PixelMethods.

Variable Subpixel : Type.
(** [<S as Zero>::zero()]. *)
Variable zero : Subpixel.

(** [Pixel::map] of the [impl_pixels!] types:
    [let mut p = Self::zero();]
    [for (dst, src) in p.channels_mut().into_iter().zip(self.data.into_iter()) { *dst = f( *src); }]. *)
Definition pixel_map (n_channels : nat) (data : list Subpixel) (f : Subpixel -> Subpixel)
  : list Subpixel :=
  Pixel.zip_assign (repeat zero n_channels) (map f data).

(** [Zero::zero()] of the pixel types. *)
Definition pixel_zero (n_channels : nat) : list Subpixel := repeat zero n_channels.

(** [Zero::is_zero] of the subpixel type. *)
Variable sub_is_zero : Subpixel -> bool.

(** [Zero::is_zero] of the pixel types:
    [self.data.iter().map(|p| p.is_zero()).fold(true, |acc, b| b && acc)]. *)
Definition pixel_is_zero (data : list Subpixel) : bool :=
  fold_left (fun acc b => b && acc) (map sub_is_zero data) true.

End PixelMethods.

Arguments pixel_map {Subpixel}.
Arguments pixel_zero {Subpixel}.
Arguments pixel_is_zero {Subpixel}.

(** ** Concrete instances

    [u8] and [i8] subpixels as [Z] with their bounds; the kernel type [T] as
    the rationals [Q] (an exact stand-in for [f32]/[f64]: on the inputs used
    below every product and sum is a small integer or a multiple of [1/9]).
    [NumCast] from a float to an integer truncates toward zero and fails
    outside the target range. *)

Definition u8_min : Z := 0%Z.
Definition u8_max : Z := 255%Z.
Definition i8_min : Z := (-128)%Z.
Definition i8_max : Z := 127%Z.

(** [<Q as NumCast>::from::<u8>]: always succeeds. *)
Definition q_of_Z (z : Z) : option Q := Some (inject_Z z).

Definition q_lt (a b : Q) : bool := negb (Qle_bool b a).

Definition q_trunc (q : Q) : Z := Z.quot (Qnum q) (Zpos (Qden q)).

(** [<I as NumCast>::from::<float>] for an integer type with range [[lo, hi]]. *)
Definition cast_q_int (lo hi : Z) (q : Q) : option Z :=
  let t := q_trunc q in
  if (lo <=? t)%Z && (t <=? hi)%Z then Some t else None.

(** [f64_to_float::<Q>(1. / f64::from(n))]. *)
Definition q_recip (n : nat) : Q := 1 # Pos.of_nat n.

(** [Kernel<Q>::convolve::<Luma<u8>, Luma<u8>, u8, u8>]. *)
Definition convolve_u8 (k : kernel Q) (img : image (list Z))
  (pad : Padding.padding (list Z)) : option (image (list Z)) :=
  convolve Z Q Z 0%Z u8_min u8_max 0%Q Qplus Qmult Qle_bool q_lt q_of_Z
    (cast_q_int u8_min u8_max) 0%Z 1 1 k img pad.

(** [Kernel<Q>::convolve::<Luma<u8>, Luma<i8>, u8, i8>]. *)
Definition convolve_u8_i8 (k : kernel Q) (img : image (list Z))
  (pad : Padding.padding (list Z)) : option (image (list Z)) :=
  convolve Z Q Z 0%Z u8_min u8_max 0%Q Qplus Qmult Qle_bool q_lt q_of_Z
    (cast_q_int i8_min i8_max) 0%Z 1 1 k img pad.

(** A [w x h] [Luma] image from its row-major values. *)
Definition luma_image (w h : nat) (v : list Z) : image (list Z) :=
  mk_image w h (fun x y => [nth (y * w + x) v 0%Z]).

(** Small images used as examples: a [5 x 2] image whose rows both read
    [[1, 2, 3, 4, 5]] (the row [[a, b, c, d, e]]), a [4 x 1] image whose
    pixel in column [x] is [x], and a [1 x 1] image. *)
Definition abcde_image : image nat := mk_image 5 2 (fun x _ => x + 1).
Definition width4_image : image nat := mk_image 4 1 (fun x _ => x).
Definition unit_image : image nat := mk_image 1 1 (fun _ _ => 7).

(** Convolution inputs: the [3 x 3] identity kernel, the [1 x 1] kernel
    [[1]], a [3 x 3] image holding [1..9] in row-major order, a constant
    [3 x 3] image of value 9 and a [1 x 1] image of value 200. *)
Definition identity_kernel : kernel Q := mk_kernel Q [0; 0; 0; 0; 1; 0; 0; 0; 0]%Q 1.
Definition one_kernel : kernel Q := mk_kernel Q [1%Q] 0.
Definition nine_image : image (list Z) := luma_image 3 3 [1; 2; 3; 4; 5; 6; 7; 8; 9]%Z.
Definition const9_image : image (list Z) := luma_image 3 3 (repeat 9%Z 9).
Definition pix200_image : image (list Z) := luma_image 1 1 [200%Z].

(** The output of the [u8] to [i8] convolution of [pix200_image]. *)
Definition i8_out : image (list Z) :=
  match convolve_u8_i8 one_kernel pix200_image (Padding.Constant [0%Z]) with
  | Some o => o
  | None => pix200_image
  end.

(** Following the spec's words: the [u8] output pixel computed from the
    full window ([conv_pixel_full]) of a padded buffer. *)
Definition conv_pixel_full_u8 (k : kernel Q) (padded : image (list Z)) (x y : nat)
  : option (list Z) :=
  conv_pixel_full Z Q Z u8_min u8_max 0%Q Qplus Qmult Qle_bool q_lt q_of_Z
    (cast_q_int u8_min u8_max) 0%Z 1 1 k padded x y.

(** ** Auxiliary definitions of the proofs *)

(** A row-major grid of [b] rows of [a] entries. *)
Definition grid {C : Type} (a b : nat) (F : nat -> nat -> C) : list C :=
  concat (map (fun j => map (fun i => F i j) (seq 0 a)) (seq 0 b)).

Definition pos_eq_dec (p q : nat * nat) : {p = q} + {p <> q}.
Proof. decide equality; apply Nat.eq_dec. Defined.

(** The [i]-th index of [0..n], reversed when [b] holds. *)
Definition flip (b : bool) (n i : nat) : nat := if b then n - 1 - i else i.

(** The source index that wrap padding of size [r] reads for the padded
    index [X] along an axis of length [n]. *)
Definition wrap_index (n r X : nat) : nat :=
  if X <? r then n - r + X else if X <? r + n then X - r else X - r - n.

(** The source index that mirror padding of size [r] reads for the padded
    index [X] along an axis of length [n]. *)
Definition mirror_index (n r X : nat) : nat :=
  if X <? r then r - 1 - X else if X <? r + n then X - r else 2 * n + r - 1 - X.

(** The source index that replicate padding of size [r] reads for the
    padded index [X] along an axis of length [n]. *)
Definition clamp_index (n r X : nat) : nat :=
  if X <? r then 0 else if X <? r + n then X - r else n - 1.

(** * Proofs *)

(** ** Lists of positions *)

Section Grid.

Lemma in_grid {C : Type} a b (F : nat -> nat -> C) z :
  In z (grid a b F) <-> exists i j, i < a /\ j < b /\ z = F i j.
Proof.
  unfold grid. rewrite in_concat. split.
  - intros [l [Hl Hz]].
    apply in_map_iff in Hl as [j [<- Hj]].
    apply in_map_iff in Hz as [i [<- Hi]].
    apply in_seq in Hi, Hj. exists i, j. repeat split; lia.
  - intros (i & j & Hi & Hj & ->).
    exists (map (fun i => F i j) (seq 0 a)). split; apply in_map_iff.
    + exists j. split; [reflexivity | apply in_seq; lia].
    + exists i. split; [reflexivity | apply in_seq; lia].
Qed.

Lemma map_grid {C D : Type} (g : C -> D) a b F :
  map g (grid a b F) = grid a b (fun i j => g (F i j)).
Proof.
  unfold grid. rewrite concat_map, map_map. f_equal.
  apply map_ext. intro j. apply map_map.
Qed.

Lemma combine_map_seq {C D : Type} (f : nat -> C) (g : nat -> D) s a b :
  combine (map f (seq s a)) (map g (seq s b)) =
  map (fun i => (f i, g i)) (seq s (Nat.min a b)).
Proof.
  revert s b. induction a as [|a IH]; intros s [|b]; simpl; auto.
  f_equal. apply IH.
Qed.

Lemma rev_map_seq {C : Type} (f : nat -> C) n :
  rev (map f (seq 0 n)) = map (fun j => f (n - 1 - j)) (seq 0 n).
Proof.
  induction n as [|n IH]; [reflexivity|].
  replace (seq 0 (S n)) with (seq 0 n ++ [n]) at 1 by (rewrite seq_S; reflexivity).
  rewrite map_app, rev_app_distr, IH.
  cbn [seq map rev app]. f_equal.
  - f_equal. lia.
  - rewrite <- seq_shift, map_map. apply map_ext. intro j. f_equal. lia.
Qed.

Lemma combine_app_eq {C D : Type} (l1 l1' : list C) (l2 l2' : list D) :
  length l1 = length l2 ->
  combine (l1 ++ l1') (l2 ++ l2') = combine l1 l2 ++ combine l1' l2'.
Proof.
  revert l2. induction l1 as [|x l1 IH]; intros [|y l2] H; simpl in *;
    try discriminate; auto.
  f_equal. apply IH. lia.
Qed.

Lemma combine_grid {C D : Type} a b (F : nat -> nat -> C) (G : nat -> nat -> D) :
  combine (grid a b F) (grid a b G) = grid a b (fun i j => (F i j, G i j)).
Proof.
  unfold grid.
  enough (forall s,
    combine (concat (map (fun j => map (fun i => F i j) (seq 0 a)) (seq s b)))
            (concat (map (fun j => map (fun i => G i j) (seq 0 a)) (seq s b))) =
    concat (map (fun j => map (fun i => (F i j, G i j)) (seq 0 a)) (seq s b)))
    by auto.
  induction b as [|b IH]; intro s; [reflexivity|].
  cbn [seq map concat].
  rewrite combine_app_eq by (rewrite !length_map; reflexivity).
  rewrite IH, combine_map_seq, Nat.min_id. reflexivity.
Qed.

End Grid.

(** ** Writes *)

Section Writes.

Variable P : Type.

Lemma assign_width (img : image P) ws : width (assign img ws) = width img.
Proof.
  unfold assign. revert img. induction ws as [|[q v] ws IH]; intro img; simpl; auto.
  rewrite IH. reflexivity.
Qed.

Lemma assign_height (img : image P) ws : height (assign img ws) = height img.
Proof.
  unfold assign. revert img. induction ws as [|[q v] ws IH]; intro img; simpl; auto.
  rewrite IH. reflexivity.
Qed.

Lemma assign_notin (img : image P) ws x y :
  ~ In (x, y) (map fst ws) -> pix (assign img ws) x y = pix img x y.
Proof.
  unfold assign. revert img. induction ws as [|[q v] ws IH]; intros img Hn; simpl; auto.
  simpl in Hn. rewrite IH by tauto. simpl.
  destruct q as [qx qy]; simpl.
  destruct (Nat.eqb_spec x qx), (Nat.eqb_spec y qy); subst; simpl; auto.
  exfalso. apply Hn. left. reflexivity.
Qed.

Lemma assign_in (img : image P) ws x y v :
  (forall v', In ((x, y), v') ws -> v' = v) ->
  In (x, y) (map fst ws) -> pix (assign img ws) x y = v.
Proof.
  unfold assign. revert img. induction ws as [|[q w] ws IH]; intros img Hv Hin;
    simpl in *; [contradiction|].
  destruct (in_dec pos_eq_dec (x, y) (map fst ws)) as [Hi|Hi].
  - apply IH; auto.
  - fold (assign (put img q w) ws). rewrite assign_notin by exact Hi.
    destruct Hin as [Hq|Hq]; [|contradiction]. subst q. simpl.
    rewrite !Nat.eqb_refl. simpl. apply Hv. left. reflexivity.
Qed.

(** The effect of a write list whose value at each position is [f] at that
    position and whose positions are those accepted by [inr]. *)
Lemma assign_char (img : image P) ws (inr : nat -> nat -> bool) f :
  (forall x y v, In ((x, y), v) ws -> v = f x y) ->
  (forall x y, In (x, y) (map fst ws) <-> inr x y = true) ->
  forall x y, pix (assign img ws) x y = if inr x y then f x y else pix img x y.
Proof.
  intros Hv Hp x y. destruct (inr x y) eqn:E.
  - apply assign_in; [intros; apply Hv; assumption | apply Hp; assumption].
  - apply assign_notin. rewrite Hp, E. discriminate.
Qed.

End Writes.

(** ** Copies and fills on rectangles *)

Lemma flip_lt b n i : i < n -> flip b n i < n.
Proof. destruct b; simpl; lia. Qed.

Lemma flip_flip b n i : i < n -> flip b n (flip b n i) = i.
Proof. destruct b; simpl; lia. Qed.

Lemma in_rect_spec r x y :
  Rect.in_rect r x y = true <->
  Rect.left r <= x < Rect.left r + Rect.width r /\
  Rect.top r <= y < Rect.top r + Rect.height r.
Proof.
  unfold Rect.in_rect. rewrite !andb_true_iff, !Nat.leb_le, !Nat.ltb_lt. tauto.
Qed.

Lemma in_rect_false r x y :
  Rect.in_rect r x y = false <->
  ~ (Rect.left r <= x < Rect.left r + Rect.width r /\
     Rect.top r <= y < Rect.top r + Rect.height r).
Proof.
  rewrite <- in_rect_spec. destruct (Rect.in_rect r x y); split; congruence.
Qed.

Lemma positions_grid r :
  Rect.positions r =
  grid (Rect.width r) (Rect.height r) (fun i j => (Rect.left r + i, Rect.top r + j)).
Proof. reflexivity. Qed.

Section Copies.

Variable P : Type.

(** The positions of a write grid that covers a rectangle, possibly with its
    columns ([bx]) and rows ([by_]) reversed, are exactly the rectangle. *)
Lemma grid_positions (r : rect) bx by_ (V : nat -> nat -> P) x y :
  In (x, y) (map fst (grid (Rect.width r) (Rect.height r)
     (fun i j => ((Rect.left r + flip bx (Rect.width r) i,
                   Rect.top r + flip by_ (Rect.height r) j), V i j))))
  <-> Rect.in_rect r x y = true.
Proof.
  rewrite map_grid, in_grid, in_rect_spec. simpl. split.
  - intros (i & j & Hi & Hj & E). injection E as -> ->.
    pose proof (flip_lt bx _ _ Hi). pose proof (flip_lt by_ _ _ Hj). lia.
  - intros [Hx Hy].
    exists (flip bx (Rect.width r) (x - Rect.left r)),
           (flip by_ (Rect.height r) (y - Rect.top r)).
    rewrite !flip_flip by lia. repeat split; try apply flip_lt; lia || f_equal; lia.
Qed.

Lemma grid_values (r : rect) bx by_ (V : nat -> nat -> P) x y v :
  In ((x, y), v) (grid (Rect.width r) (Rect.height r)
     (fun i j => ((Rect.left r + flip bx (Rect.width r) i,
                   Rect.top r + flip by_ (Rect.height r) j), V i j))) ->
  v = V (flip bx (Rect.width r) (x - Rect.left r))
        (flip by_ (Rect.height r) (y - Rect.top r)).
Proof.
  rewrite in_grid. intros (i & j & Hi & Hj & E). injection E as -> -> ->.
  rewrite !Nat.add_sub_swap, !Nat.sub_diag by lia. simpl.
  rewrite !flip_flip by assumption. reflexivity.
Qed.

Lemma rect_iter_grid (img : image P) r l :
  rect_iter img r = Some l ->
  l = grid (Rect.width r) (Rect.height r)
        (fun i j => pix img (Rect.left r + i) (Rect.top r + j)).
Proof.
  unfold rect_iter. destruct (slice_ok img r); intro H; inversion H.
  rewrite positions_grid, map_grid. reflexivity.
Qed.

Lemma blit_rect_spec (self src : image P) s d out :
  blit_rect self s d src = Some out ->
  width out = width self /\ height out = height self /\
  forall x y, pix out x y =
    if Rect.in_rect d x y
    then pix src (Rect.left s + (x - Rect.left d)) (Rect.top s + (y - Rect.top d))
    else pix self x y.
Proof.
  unfold blit_rect, Rect.size.
  destruct ((Rect.width s =? Rect.width d) && (Rect.height s =? Rect.height d)) eqn:Hs;
    simpl; [|discriminate].
  apply andb_true_iff in Hs as [Hw Hh]. apply Nat.eqb_eq in Hw, Hh.
  destruct (Rect.fits_image s (width src) (height src)); simpl; [|discriminate].
  destruct (Rect.fits_image d (width self) (height self)); simpl; [|discriminate].
  destruct (rect_iter src s) as [l|] eqn:Hl; [|discriminate].
  apply rect_iter_grid in Hl. subst l. intro H. injection H as <-.
  rewrite assign_width, assign_height. repeat split.
  rewrite positions_grid, Hw, Hh, combine_grid.
  apply assign_char.
  - intros x y v Hin.
    apply (grid_values d false false
      (fun i j => pix src (Rect.left s + i) (Rect.top s + j))) in Hin.
    exact Hin.
  - intros x y.
    exact (grid_positions d false false
      (fun i j => pix src (Rect.left s + i) (Rect.top s + j)) x y).
Qed.

Lemma mirror_writes (rr rc : bool) (img : image P) sl st dl dt w h :
  concat (map (fun '((sr, dr) : list (nat * nat) * list (nat * nat)) =>
                 combine (if rc then rev dr else dr)
                         (map (fun '(x, y) => pix img x y) sr))
              (combine (Rect.rows (mk_rect sl st w h))
                       (if rr then rev (Rect.rows (mk_rect dl dt w h))
                        else Rect.rows (mk_rect dl dt w h)))) =
  grid w h (fun i j => ((dl + flip rc w i, dt + flip rr h j),
                        pix img (sl + i) (st + j))).
Proof.
  unfold Rect.rows; simpl.
  replace (if rr then rev (map (fun j => map (fun i => (dl + i, dt + j)) (seq 0 w)) (seq 0 h))
           else map (fun j => map (fun i => (dl + i, dt + j)) (seq 0 w)) (seq 0 h))
    with (map (fun j => map (fun i => (dl + i, dt + flip rr h j)) (seq 0 w)) (seq 0 h))
    by (destruct rr; [rewrite rev_map_seq|]; reflexivity).
  rewrite combine_map_seq, Nat.min_id, map_map.
  unfold grid. f_equal. apply map_ext. intro j.
  replace (if rc then rev (map (fun i => (dl + i, dt + flip rr h j)) (seq 0 w))
           else map (fun i => (dl + i, dt + flip rr h j)) (seq 0 w))
    with (map (fun i => (dl + flip rc w i, dt + flip rr h j)) (seq 0 w))
    by (destruct rc; [rewrite rev_map_seq|]; reflexivity).
  rewrite map_map, combine_map_seq, Nat.min_id. reflexivity.
Qed.

Lemma mirror_copy_spec (rr rc : bool) (img padded : image P) s d out :
  Rect.size s = Rect.size d ->
  Padding.mirror_copy P rr rc img padded (Some s) (Some d) = Some out ->
  width out = width padded /\ height out = height padded /\
  forall x y, pix out x y =
    if Rect.in_rect d x y
    then pix img (Rect.left s + flip rc (Rect.width d) (x - Rect.left d))
                 (Rect.top s + flip rr (Rect.height d) (y - Rect.top d))
    else pix padded x y.
Proof.
  destruct s as [sl st sw sh], d as [dl dt dw dh]. unfold Rect.size; simpl.
  intro E. injection E as -> ->.
  unfold Padding.mirror_copy.
  destruct (slice_ok img _ && slice_ok padded _); [|discriminate].
  intro H. injection H as <-.
  rewrite assign_width, assign_height, mirror_writes. repeat split.
  apply assign_char.
  - intros x y v Hin.
    exact (grid_values (mk_rect dl dt dw dh) rc rr
      (fun i j => pix img (sl + i) (st + j)) x y v Hin).
  - intros x y.
    exact (grid_positions (mk_rect dl dt dw dh) rc rr
      (fun i j => pix img (sl + i) (st + j)) x y).
Qed.

Lemma in_positions r x y :
  In (x, y) (Rect.positions r) <-> Rect.in_rect r x y = true.
Proof.
  rewrite positions_grid, in_grid, in_rect_spec. split.
  - intros (i & j & Hi & Hj & E). injection E as -> ->. lia.
  - intros [Hx Hy]. exists (x - Rect.left r), (y - Rect.top r).
    repeat split; try lia. f_equal; lia.
Qed.

Lemma blit_rect_ok (self src : image P) s d :
  Rect.size s = Rect.size d -> Rect.width s <> 0 -> Rect.height s <> 0 ->
  Rect.left s + Rect.width s <= width src -> Rect.top s + Rect.height s <= height src ->
  Rect.left d + Rect.width d <= width self -> Rect.top d + Rect.height d <= height self ->
  exists out, blit_rect self s d src = Some out /\
  width out = width self /\ height out = height self /\
  forall x y, pix out x y =
    if Rect.in_rect d x y
    then pix src (Rect.left s + (x - Rect.left d)) (Rect.top s + (y - Rect.top d))
    else pix self x y.
Proof.
  intros Hsz Hw Hh Hs1 Hs2 Hd1 Hd2.
  assert (E : exists out, blit_rect self s d src = Some out).
  { unfold blit_rect. rewrite <- Hsz. unfold Rect.size, Rect.fits_image, Rect.right, Rect.bottom.
    unfold Rect.size in Hsz. injection Hsz as Hw' Hh'.
    rewrite !Nat.eqb_refl. simpl.
    replace (Rect.left s + Rect.width s - 1 <? width src) with true
      by (symmetry; apply Nat.ltb_lt; lia).
    replace (Rect.top s + Rect.height s - 1 <? height src) with true
      by (symmetry; apply Nat.ltb_lt; lia).
    replace (Rect.left d + Rect.width d - 1 <? width self) with true
      by (symmetry; apply Nat.ltb_lt; lia).
    replace (Rect.top d + Rect.height d - 1 <? height self) with true
      by (symmetry; apply Nat.ltb_lt; lia).
    simpl. unfold rect_iter, slice_ok.
    replace (Rect.top s + Rect.height s <=? height src) with true
      by (symmetry; apply Nat.leb_le; lia).
    replace (Rect.left s + Rect.width s <=? width src) with true
      by (symmetry; apply Nat.leb_le; lia).
    simpl. eexists. reflexivity. }
  destruct E as [out E]. exists out. split; [exact E|].
  exact (blit_rect_spec self src s d out E).
Qed.

Lemma mirror_copy_ok (rr rc : bool) (img padded : image P) s d :
  Rect.size s = Rect.size d ->
  Rect.left s + Rect.width s <= width img -> Rect.top s + Rect.height s <= height img ->
  Rect.left d + Rect.width d <= width padded -> Rect.top d + Rect.height d <= height padded ->
  exists out, Padding.mirror_copy P rr rc img padded (Some s) (Some d) = Some out /\
  width out = width padded /\ height out = height padded /\
  forall x y, pix out x y =
    if Rect.in_rect d x y
    then pix img (Rect.left s + flip rc (Rect.width d) (x - Rect.left d))
                 (Rect.top s + flip rr (Rect.height d) (y - Rect.top d))
    else pix padded x y.
Proof.
  intros Hsz Hs1 Hs2 Hd1 Hd2.
  assert (E : exists out, Padding.mirror_copy P rr rc img padded (Some s) (Some d) = Some out).
  { unfold Padding.mirror_copy, slice_ok.
    replace (Rect.top s + Rect.height s <=? height img) with true
      by (symmetry; apply Nat.leb_le; lia).
    replace (Rect.left s + Rect.width s <=? width img) with true
      by (symmetry; apply Nat.leb_le; lia).
    replace (Rect.top d + Rect.height d <=? height padded) with true
      by (symmetry; apply Nat.leb_le; lia).
    replace (Rect.left d + Rect.width d <=? width padded) with true
      by (symmetry; apply Nat.leb_le; lia).
    simpl. eexists. reflexivity. }
  destruct E as [out E]. exists out. split; [exact E|].
  exact (mirror_copy_spec rr rc img padded s d out Hsz E).
Qed.

Lemma fill_lines_singletons (l : list (nat * nat)) (v : P) :
  Padding.fill_lines P (map (fun q => [q]) l) (repeat v (length l)) =
  map (fun q => (q, v)) l.
Proof.
  induction l as [|q l IH]; [reflexivity|].
  unfold Padding.fill_lines in *. simpl. rewrite IH. reflexivity.
Qed.

Lemma fill_lines_cols r (g : nat -> P) :
  Padding.fill_lines P (Rect.cols r) (map g (seq 0 (Rect.width r))) =
  grid (Rect.height r) (Rect.width r)
    (fun j i => ((Rect.left r + i, Rect.top r + j), g i)).
Proof.
  unfold Padding.fill_lines, Rect.cols.
  rewrite combine_map_seq, Nat.min_id, map_map.
  unfold grid. f_equal. apply map_ext. intro i. rewrite map_map. reflexivity.
Qed.

Lemma fill_lines_rows r (g : nat -> P) :
  Padding.fill_lines P (Rect.rows r) (map g (seq 0 (Rect.height r))) =
  grid (Rect.width r) (Rect.height r)
    (fun i j => ((Rect.left r + i, Rect.top r + j), g j)).
Proof.
  unfold Padding.fill_lines, Rect.rows.
  rewrite combine_map_seq, Nat.min_id, map_map.
  unfold grid. f_equal. apply map_ext. intro j. rewrite map_map. reflexivity.
Qed.

Lemma fill_corner_ok (padded : image P) (size : nat * nat) x y (val : P) :
  fst size <> 0 -> snd size <> 0 ->
  x + fst size <= width padded -> y + snd size <= height padded ->
  exists out, Padding.fill_corner P padded size x y val = Some out /\
  width out = width padded /\ height out = height padded /\
  forall X Y, pix out X Y =
    if Rect.in_rect (mk_rect x y (fst size) (snd size)) X Y then val
    else pix padded X Y.
Proof.
  intros H0 H1 Hx Hy. unfold Padding.fill_corner, Rect.new.
  replace ((fst size =? 0) || (snd size =? 0)) with false
    by (symmetry; apply orb_false_iff; split; apply Nat.eqb_neq; assumption).
  unfold Padding.fill_view, slice_ok; simpl.
  replace (y + snd size <=? height padded) with true by (symmetry; apply Nat.leb_le; lia).
  replace (x + fst size <=? width padded) with true by (symmetry; apply Nat.leb_le; lia).
  simpl. eexists. split; [reflexivity|].
  rewrite assign_width, assign_height, fill_lines_singletons. repeat split.
  apply assign_char.
  - intros X Y v Hin. apply in_map_iff in Hin as [q [E _]]. congruence.
  - intros X Y. rewrite map_map, map_id. apply in_positions.
Qed.

Lemma fill_view_cols_ok (padded : image P) r (g : nat -> P) :
  Rect.left r + Rect.width r <= width padded ->
  Rect.top r + Rect.height r <= height padded ->
  exists out,
  Padding.fill_view P padded r (Rect.cols r) (map g (seq 0 (Rect.width r))) = Some out /\
  width out = width padded /\ height out = height padded /\
  forall X Y, pix out X Y =
    if Rect.in_rect r X Y then g (X - Rect.left r) else pix padded X Y.
Proof.
  intros Hx Hy. unfold Padding.fill_view, slice_ok.
  replace (Rect.top r + Rect.height r <=? height padded) with true
    by (symmetry; apply Nat.leb_le; lia).
  replace (Rect.left r + Rect.width r <=? width padded) with true
    by (symmetry; apply Nat.leb_le; lia).
  simpl. eexists. split; [reflexivity|].
  rewrite assign_width, assign_height, fill_lines_cols. repeat split.
  apply assign_char.
  - intros X Y v Hin. apply in_grid in Hin as (j & i & _ & _ & E).
    injection E as -> -> ->. f_equal. lia.
  - intros X Y. rewrite map_grid, in_grid, in_rect_spec. simpl. split.
    + intros (j & i & Hj & Hi & E). injection E as -> ->. lia.
    + intros [HX HY]. exists (Y - Rect.top r), (X - Rect.left r).
      repeat split; try lia. f_equal; lia.
Qed.

Lemma fill_view_rows_ok (padded : image P) r (g : nat -> P) :
  Rect.left r + Rect.width r <= width padded ->
  Rect.top r + Rect.height r <= height padded ->
  exists out,
  Padding.fill_view P padded r (Rect.rows r) (map g (seq 0 (Rect.height r))) = Some out /\
  width out = width padded /\ height out = height padded /\
  forall X Y, pix out X Y =
    if Rect.in_rect r X Y then g (Y - Rect.top r) else pix padded X Y.
Proof.
  intros Hx Hy. unfold Padding.fill_view, slice_ok.
  replace (Rect.top r + Rect.height r <=? height padded) with true
    by (symmetry; apply Nat.leb_le; lia).
  replace (Rect.left r + Rect.width r <=? width padded) with true
    by (symmetry; apply Nat.leb_le; lia).
  simpl. eexists. split; [reflexivity|].
  rewrite assign_width, assign_height, fill_lines_rows. repeat split.
  apply assign_char.
  - intros X Y v Hin. apply in_grid in Hin as (i & j & _ & _ & E).
    injection E as -> -> ->. f_equal. lia.
  - intros X Y. rewrite map_grid, in_grid, in_rect_spec. simpl. split.
    + intros (i & j & Hi & Hj & E). injection E as -> ->. lia.
    + intros [HX HY]. exists (X - Rect.left r), (Y - Rect.top r).
      repeat split; try lia. f_equal; lia.
Qed.

End Copies.

Arguments grid_positions {P}.
Arguments grid_values {P}.
Arguments rect_iter_grid {P}.
Arguments blit_rect_spec {P}.
Arguments mirror_writes {P}.
Arguments mirror_copy_spec {P}.
Arguments blit_rect_ok {P}.
Arguments mirror_copy_ok {P}.
Arguments fill_lines_singletons {P}.
Arguments fill_lines_cols {P}.
Arguments fill_lines_rows {P}.
Arguments fill_corner_ok {P}.
Arguments fill_view_cols_ok {P}.
Arguments fill_view_rows_ok {P}.

(** ** Success of the primitive steps *)

Lemma rect_new_ok x y w h :
  w <> 0 -> h <> 0 -> Rect.new x y w h = Some (mk_rect x y w h).
Proof.
  intros Hw Hh. unfold Rect.new.
  apply Nat.eqb_neq in Hw, Hh. rewrite Hw, Hh. reflexivity.
Qed.

Lemma rect_new_zero_w x y h : Rect.new x y 0 h = None.
Proof. reflexivity. Qed.

Lemma sub32_ok a b : b <= a -> sub32 a b = Some (a - b).
Proof. intro H. unfold sub32. apply Nat.leb_le in H. rewrite H. reflexivity. Qed.

Lemma sub32_under a b : a < b -> sub32 a b = None.
Proof.
  intro H. unfold sub32. destruct (Nat.leb_spec b a); [lia | reflexivity].
Qed.

Lemma rect_new_zero_h x y w : Rect.new x y w 0 = None.
Proof. unfold Rect.new. rewrite orb_true_r. reflexivity. Qed.

Lemma rect_new_none x y w h : w = 0 \/ h = 0 -> Rect.new x y w h = None.
Proof. intros [-> | ->]; [reflexivity | apply rect_new_zero_h]. Qed.

Lemma add32_ok a b : (Z.of_nat (a + b) < 2 ^ 32)%Z -> add32 a b = Some (a + b).
Proof. intro H. unfold add32. apply Z.ltb_lt in H. rewrite H. reflexivity. Qed.

Lemma mul32_ok a b : (Z.of_nat (a * b) < 2 ^ 32)%Z -> mul32 a b = Some (a * b).
Proof. intro H. unfold mul32. apply Z.ltb_lt in H. rewrite H. reflexivity. Qed.

Section Access.

Variable P : Type.

Lemma get_pixel_ok (img : image P) x y :
  x < width img -> y < height img -> get_pixel img x y = Some (pix img x y).
Proof.
  intros Hx Hy. unfold get_pixel.
  apply Nat.ltb_lt in Hx, Hy. rewrite Hx, Hy. reflexivity.
Qed.

Lemma row_ok (img : image P) y :
  y < height img -> row img y = Some (map (fun x => pix img x y) (seq 0 (width img))).
Proof. intro H. unfold row. apply Nat.ltb_lt in H. rewrite H. reflexivity. Qed.

Lemma col_ok (img : image P) x :
  x < width img -> col img x = Some (map (fun y => pix img x y) (seq 0 (height img))).
Proof. intro H. unfold col. apply Nat.ltb_lt in H. rewrite H. reflexivity. Qed.

Lemma pad_constant_ok (img : image P) s0 s1 (val : P) :
  width img <> 0 -> height img <> 0 ->
  (Z.of_nat (width img + 2 * s0) < 2 ^ 32)%Z ->
  (Z.of_nat (height img + 2 * s1) < 2 ^ 32)%Z ->
  exists out, Padding.pad_constant img (s0, s1) val = Some out /\
  width out = width img + 2 * s0 /\ height out = height img + 2 * s1 /\
  forall X Y, pix out X Y =
    if Rect.in_rect (mk_rect s0 s1 (width img) (height img)) X Y
    then pix img (X - s0) (Y - s1) else val.
Proof.
  intros Hw Hh Bw Bh. unfold Padding.pad_constant, dimensions, img_rect.
  cbv beta iota zeta. cbn [fst snd].
  rewrite (mul32_ok 2 s0) by lia. cbv beta iota.
  rewrite (add32_ok (width img) (2 * s0)) by exact Bw. cbv beta iota.
  rewrite (mul32_ok 2 s1) by lia. cbv beta iota.
  rewrite (add32_ok (height img) (2 * s1)) by exact Bh. cbv beta iota.
  rewrite !rect_new_ok by assumption.
  destruct (blit_rect_ok (from_elem (width img + 2 * s0) (height img + 2 * s1) val) img
              (mk_rect 0 0 (width img) (height img)) (mk_rect s0 s1 (width img) (height img)))
    as (out & E & W & H & Pix); [reflexivity | simpl; lia .. |].
  exists out. rewrite E. repeat split; auto.
Qed.

Lemma pad_constant_empty (img : image P) size (val : P) :
  width img = 0 \/ height img = 0 -> Padding.pad_constant img size val = None.
Proof.
  intro H. unfold Padding.pad_constant, dimensions. destruct size as [s0 s1].
  cbv beta iota zeta. cbn [fst snd].
  destruct (mul32 2 s0); [|reflexivity]. destruct (add32 (width img) _); [|reflexivity].
  destruct (mul32 2 s1); [|reflexivity]. destruct (add32 (height img) _); [|reflexivity].
  rewrite rect_new_none by exact H. reflexivity.
Qed.

Lemma pad_constant_overflow (img : image P) s0 s1 (val : P) :
  (2 ^ 32 <= Z.of_nat (width img + 2 * s0))%Z \/
  (2 ^ 32 <= Z.of_nat (height img + 2 * s1))%Z ->
  Padding.pad_constant img (s0, s1) val = None.
Proof.
  intro H. unfold Padding.pad_constant, dimensions, mul32, add32.
  cbv beta iota zeta. cbn [fst snd].
  destruct (Z.ltb_spec (Z.of_nat (2 * s0)) (2 ^ 32)); [|reflexivity].
  destruct (Z.ltb_spec (Z.of_nat (width img + 2 * s0)) (2 ^ 32)); [|reflexivity].
  destruct (Z.ltb_spec (Z.of_nat (2 * s1)) (2 ^ 32)); [|reflexivity].
  destruct (Z.ltb_spec (Z.of_nat (height img + 2 * s1)) (2 ^ 32)); [|reflexivity].
  exfalso. lia.
Qed.

Lemma pad_constant_dims (img : image P) s0 s1 (val : P) out :
  Padding.pad_constant img (s0, s1) val = Some out ->
  width out = width img + 2 * s0 /\ height out = height img + 2 * s1.
Proof.
  unfold Padding.pad_constant, dimensions, mul32, add32.
  cbv beta iota zeta. cbn [fst snd].
  destruct (Z.of_nat (2 * s0) <? 2 ^ 32)%Z; [|discriminate].
  destruct (Z.of_nat (width img + 2 * s0) <? 2 ^ 32)%Z; [|discriminate].
  destruct (Z.of_nat (2 * s1) <? 2 ^ 32)%Z; [|discriminate].
  destruct (Z.of_nat (height img + 2 * s1) <? 2 ^ 32)%Z; [|discriminate].
  destruct (Rect.new s0 s1 (width img) (height img)) as [r|]; [|discriminate].
  destruct (img_rect img) as [src|]; [|discriminate].
  intro E. apply blit_rect_spec in E as (W & H & _). split; assumption.
Qed.

End Access.

Arguments get_pixel_ok {P}.
Arguments row_ok {P}.
Arguments col_ok {P}.
Arguments pad_constant_ok {P}.
Arguments pad_constant_empty {P}.
Arguments pad_constant_overflow {P}.
Arguments pad_constant_dims {P}.

(** Decide every [Rect.in_rect] and every [<?] of the goal, then close the
    remaining goals by arithmetic. *)
Ltac decide_rects :=
  cbv beta; cbn [flip Rect.left Rect.top Rect.width Rect.height];
  repeat match goal with
  | |- context [Rect.in_rect ?r ?x ?y] =>
      let E := fresh "E" in
      destruct (Rect.in_rect r x y) eqn:E;
      [apply in_rect_spec in E | apply in_rect_false in E]; simpl in E
  | |- context [?a <? ?b] => destruct (Nat.ltb_spec a b)
  end;
  try (exfalso; lia); try (f_equal; lia).

(** One step of a padding pipeline: run the first primitive copy or fill
    of the goal, naming its result and its pixel equation. *)
Ltac pad_step :=
  match goal with
  | |- context [blit_rect ?self ?s ?d ?src] =>
      let p := fresh "p" in let Ep := fresh "Ep" in
      let W := fresh "W" in let H := fresh "H" in let E := fresh "E" in
      destruct (blit_rect_ok self src s d) as (p & Ep & W & H & E);
      [reflexivity | simpl; lia .. | rewrite Ep; cbv beta iota]
  | |- context [Padding.mirror_copy _ ?rr ?rc ?img ?padded (Some ?s) (Some ?d)] =>
      let p := fresh "p" in let Ep := fresh "Ep" in
      let W := fresh "W" in let H := fresh "H" in let E := fresh "E" in
      destruct (mirror_copy_ok rr rc img padded s d) as (p & Ep & W & H & E);
      [reflexivity | simpl; lia .. | rewrite Ep; cbv beta iota]
  | |- context [Padding.fill_corner _ ?padded ?size ?x ?y ?v] =>
      let p := fresh "p" in let Ep := fresh "Ep" in
      let W := fresh "W" in let H := fresh "H" in let E := fresh "E" in
      destruct (fill_corner_ok padded size x y v) as (p & Ep & W & H & E);
      [simpl; lia .. | rewrite Ep; cbv beta iota]
  | |- context [Padding.fill_view _ ?padded ?r (Rect.cols ?r) (map ?g _)] =>
      let p := fresh "p" in let Ep := fresh "Ep" in
      let W := fresh "W" in let H := fresh "H" in let E := fresh "E" in
      destruct (fill_view_cols_ok padded r g) as (p & Ep & W & H & E);
      [simpl; lia .. | cbn [Rect.width Rect.height] in Ep; rewrite Ep; cbv beta iota]
  | |- context [Padding.fill_view _ ?padded ?r (Rect.rows ?r) (map ?g _)] =>
      let p := fresh "p" in let Ep := fresh "Ep" in
      let W := fresh "W" in let H := fresh "H" in let E := fresh "E" in
      destruct (fill_view_rows_ok padded r g) as (p & Ep & W & H & E);
      [simpl; lia .. | cbn [Rect.width Rect.height] in Ep; rewrite Ep; cbv beta iota]
  end.

(** Unfold the pixel equations of a pipeline at a given pixel. *)
Ltac unfold_pix :=
  repeat match goal with
  | E : forall x y, pix ?p x y = _ |- context [pix ?p _ _] => rewrite E
  end.

(** ** Wrap padding *)

Section WrapChar.

Variable P : Type.
Variable zero : P.

Lemma pad_wrap_char (img : image P) r :
  1 <= r -> r <= width img -> r <= height img ->
  (Z.of_nat (width img + 2 * r) < 2 ^ 32)%Z -> (Z.of_nat (height img + 2 * r) < 2 ^ 32)%Z ->
  exists out, Padding.pad_wrap zero img (r, r) = Some out /\
  width out = width img + 2 * r /\ height out = height img + 2 * r /\
  forall X Y, X < width img + 2 * r -> Y < height img + 2 * r ->
  pix out X Y = pix img (wrap_index (width img) r X) (wrap_index (height img) r Y).
Proof.
  intros Hr Hw Hh Bw Bh. unfold Padding.pad_wrap, Padding.pad_zeros.
  cbv beta iota zeta.
  destruct (pad_constant_ok img r r zero) as (p0 & Ep0 & W0 & H0 & E0); [lia | lia | assumption | assumption |].
  rewrite Ep0. cbv beta iota.
  rewrite !sub32_ok by lia. cbv beta iota.
  rewrite !rect_new_ok by lia. unfold Padding.copy_subimage. cbv beta iota.
  do 8 pad_step.
  eexists. split; [reflexivity|]. split; [lia|]. split; [lia|].
  intros X Y HX HY. unfold_pix. unfold wrap_index. decide_rects.
Qed.

End WrapChar.

(** ** Mirror and replicate padding *)

Section MirrorReplicateChar.

Variable P : Type.
Variable zero : P.

Lemma pad_mirror_char (img : image P) r :
  1 <= r -> r <= width img -> r <= height img ->
  (Z.of_nat (width img + 2 * r) < 2 ^ 32)%Z -> (Z.of_nat (height img + 2 * r) < 2 ^ 32)%Z ->
  exists out, Padding.pad_mirror zero img (r, r) = Some out /\
  width out = width img + 2 * r /\ height out = height img + 2 * r /\
  forall X Y, X < width img + 2 * r -> Y < height img + 2 * r ->
  pix out X Y = pix img (mirror_index (width img) r X) (mirror_index (height img) r Y).
Proof.
  intros Hr Hw Hh Bw Bh. unfold Padding.pad_mirror, Padding.pad_zeros.
  cbv beta iota zeta.
  destruct (pad_constant_ok img r r zero) as (p0 & Ep0 & W0 & H0 & E0); [lia | lia | assumption | assumption |].
  rewrite Ep0. cbv beta iota.
  rewrite !sub32_ok by lia. cbv beta iota.
  rewrite !rect_new_ok by lia.
  unfold Padding.copy_and_mirror_subimage_both, Padding.copy_and_mirror_subimage_hor,
    Padding.copy_and_mirror_subimage_ver.
  do 8 pad_step.
  eexists. split; [reflexivity|]. split; [lia|]. split; [lia|].
  intros X Y HX HY. unfold_pix. unfold mirror_index. decide_rects.
Qed.

Lemma pad_replicate_char (img : image P) r :
  1 <= r -> 1 <= width img -> 1 <= height img ->
  (Z.of_nat (width img + 2 * r) < 2 ^ 32)%Z -> (Z.of_nat (height img + 2 * r) < 2 ^ 32)%Z ->
  exists out, Padding.pad_replicate zero img (r, r) = Some out /\
  width out = width img + 2 * r /\ height out = height img + 2 * r /\
  forall X Y, X < width img + 2 * r -> Y < height img + 2 * r ->
  pix out X Y = pix img (clamp_index (width img) r X) (clamp_index (height img) r Y).
Proof.
  intros Hr Hw Hh Bw Bh. unfold Padding.pad_replicate, Padding.pad_zeros.
  cbv beta iota zeta.
  destruct (pad_constant_ok img r r zero) as (p0 & Ep0 & W0 & H0 & E0); [lia | lia | assumption | assumption |].
  rewrite Ep0. cbv beta iota.
  rewrite !sub32_ok by lia. cbv beta iota.
  rewrite !get_pixel_ok by lia. cbv beta iota.
  rewrite !row_ok, !col_ok by lia. cbv beta iota.
  rewrite !rect_new_ok by lia. cbv beta iota.
  do 8 pad_step.
  eexists. split; [reflexivity|]. split; [lia|]. split; [lia|].
  intros X Y HX HY. unfold_pix. unfold clamp_index. decide_rects.
Qed.

End MirrorReplicateChar.

(** ** Failures of the padding modes *)

Section Failures.

Variable P : Type.
Variable zero : P.

Lemma blit_rect_src_unfit (self src : image P) s d :
  Rect.fits_image s (width src) (height src) = false ->
  blit_rect self s d src = None.
Proof.
  intro H. unfold blit_rect. destruct (Rect.size s), (Rect.size d).
  destruct (negb _); [reflexivity|]. rewrite H. reflexivity.
Qed.

Lemma mirror_copy_src_unfit rr rc (img padded : image P) s d :
  slice_ok img s = false ->
  Padding.mirror_copy P rr rc img padded (Some s) d = None.
Proof.
  intro H. unfold Padding.mirror_copy. destruct d; [|reflexivity].
  rewrite H. reflexivity.
Qed.

Lemma pad_wrap_fails (img : image P) s0 s1 :
  s0 = 0 \/ s1 = 0 \/ width img < s0 \/ height img < s1 ->
  Padding.pad_wrap zero img (s0, s1) = None.
Proof.
  intro H. unfold Padding.pad_wrap. cbv beta iota zeta.
  destruct (Padding.pad_zeros zero img (s0, s1)) as [p|]; [|reflexivity].
  unfold Padding.copy_subimage.
  destruct (Nat.eq_dec s0 0) as [E0|E0]; [rewrite (rect_new_none 0 0 s0 s1) by lia; reflexivity|].
  destruct (Nat.eq_dec s1 0) as [E1|E1]; [rewrite (rect_new_none 0 0 s0 s1) by lia; reflexivity|].
  rewrite !(rect_new_ok _ _ s0 s1) by assumption.
  rewrite blit_rect_src_unfit; [reflexivity|].
  unfold Rect.fits_image, Rect.right, Rect.bottom. simpl.
  destruct (Nat.ltb_spec (s0 - 1) (width img)), (Nat.ltb_spec (s1 - 1) (height img));
    simpl; try reflexivity; lia.
Qed.

Lemma pad_mirror_fails (img : image P) s0 s1 :
  s0 = 0 \/ s1 = 0 \/ width img < s0 \/ height img < s1 ->
  Padding.pad_mirror zero img (s0, s1) = None.
Proof.
  intro H. unfold Padding.pad_mirror. cbv beta iota zeta.
  destruct (Padding.pad_zeros zero img (s0, s1)) as [p|]; [|reflexivity].
  unfold Padding.copy_and_mirror_subimage_both.
  destruct (Nat.eq_dec s0 0) as [E0|E0];
    [unfold Padding.mirror_copy; rewrite (rect_new_none 0 0 s0 s1) by lia; reflexivity|].
  destruct (Nat.eq_dec s1 0) as [E1|E1];
    [unfold Padding.mirror_copy; rewrite (rect_new_none 0 0 s0 s1) by lia; reflexivity|].
  rewrite (rect_new_ok 0 0 s0 s1) by assumption.
  rewrite mirror_copy_src_unfit; [reflexivity|].
  unfold slice_ok. simpl.
  destruct (Nat.leb_spec s1 (height img)), (Nat.leb_spec s0 (width img));
    simpl; try reflexivity; lia.
Qed.

Lemma pad_replicate_fails (img : image P) s0 s1 :
  s0 = 0 \/ s1 = 0 ->
  Padding.pad_replicate zero img (s0, s1) = None.
Proof.
  intro H. unfold Padding.pad_replicate. cbv beta iota zeta.
  destruct (Padding.pad_zeros zero img (s0, s1)) as [p|]; [|reflexivity].
  destruct (get_pixel img 0 0) as [p00|]; [|reflexivity].
  unfold Padding.fill_corner. cbn [fst snd].
  rewrite (rect_new_none 0 0 s0 s1) by assumption. reflexivity.
Qed.

Lemma pad_modes_overflow (img : image P) s0 s1 :
  (2 ^ 32 <= Z.of_nat (width img + 2 * s0))%Z \/
  (2 ^ 32 <= Z.of_nat (height img + 2 * s1))%Z ->
  Padding.pad_wrap zero img (s0, s1) = None /\
  Padding.pad_mirror zero img (s0, s1) = None /\
  Padding.pad_replicate zero img (s0, s1) = None.
Proof.
  intro H.
  unfold Padding.pad_wrap, Padding.pad_mirror, Padding.pad_replicate, Padding.pad_zeros.
  cbv beta iota zeta. rewrite pad_constant_overflow by exact H.
  repeat split; reflexivity.
Qed.

End Failures.

Arguments pad_wrap_fails {P}.
Arguments pad_mirror_fails {P}.
Arguments pad_replicate_fails {P}.
Arguments pad_modes_overflow {P}.

(** ** Pixel helpers *)

Section PixelFacts.

Variable Subpixel : Type.

Lemma zip_assign_length (data s : list Subpixel) :
  length (Pixel.zip_assign data s) = length data.
Proof.
  revert s. induction data as [|n data IH]; intros [|e s]; simpl; auto.
Qed.

Lemma zip_assign_nth (data s : list Subpixel) i d :
  nth i (Pixel.zip_assign data s) d =
  if i <? Nat.min (length data) (length s) then nth i s d else nth i data d.
Proof.
  revert s i. induction data as [|n data IH]; intros [|e s] [|i]; simpl; auto.
Qed.

Lemma nth_repeat_same (z : Subpixel) n i : nth i (repeat z n) z = z.
Proof. revert i. induction n as [|n IH]; intros [|i]; simpl; auto. Qed.

Lemma count_map_none (f : Subpixel -> option Subpixel) l :
  Pixel.count_map f l = None -> exists c, In c l /\ f c = None.
Proof.
  induction l as [|c l IH]; simpl; [discriminate|].
  destruct (f c) eqn:E.
  - destruct (Pixel.count_map f l); [discriminate|].
    intros _. destruct IH as (c' & Hin & Hc'); [reflexivity|]. eauto.
  - intros _. eauto.
Qed.

End PixelFacts.

(** ** Convolution helpers *)

Lemma list_opt_map_char {A B : Type} (f : A -> option B) (g : A -> B) l o :
  (forall a b, In a l -> f a = Some b -> b = g a) ->
  list_opt (map f l) = Some o -> o = map g l.
Proof.
  revert o. induction l as [|a l IH]; simpl; intros o Hf E.
  - injection E as <-. reflexivity.
  - destruct (f a) as [b|] eqn:Ea; [|discriminate].
    destruct (list_opt (map f l)) as [rest|] eqn:Er; [|discriminate].
    injection E as <-. f_equal; eauto.
Qed.

Lemma in_scan w h x y : In (x, y) (scan w h) <-> x < w /\ y < h.
Proof.
  unfold scan. rewrite in_concat. split.
  - intros (l & Hl & Hin). apply in_map_iff in Hl as (y' & <- & Hy').
    apply in_map_iff in Hin as (x' & E & Hx'). injection E as <- <-.
    apply in_seq in Hx', Hy'. lia.
  - intros [Hx Hy]. exists (map (fun x => (x, y)) (seq 0 w)). split.
    + apply in_map_iff. exists y. split; [reflexivity|]. apply in_seq. lia.
    + apply in_map_iff. exists x. split; [reflexivity|]. apply in_seq. lia.
Qed.

(** ** Rectangles *)

Lemma contains_spec r x y :
  Rect.contains r x y = true <->
  Rect.left r <= x <= Rect.left r + Rect.width r - 1 /\
  Rect.top r <= y <= Rect.top r + Rect.height r - 1.
Proof.
  unfold Rect.contains, Rect.right, Rect.bottom.
  rewrite !andb_true_iff, !Nat.leb_le. tauto.
Qed.

Lemma contains_false r x y :
  Rect.contains r x y = false <->
  ~ (Rect.left r <= x <= Rect.left r + Rect.width r - 1 /\
     Rect.top r <= y <= Rect.top r + Rect.height r - 1).
Proof.
  rewrite <- contains_spec. destruct (Rect.contains r x y); split; congruence.
Qed.

Lemma max_leb a b x : (Nat.max a b <=? x) = (a <=? x) && (b <=? x).
Proof.
  destruct (Nat.leb_spec (Nat.max a b) x), (Nat.leb_spec a x), (Nat.leb_spec b x);
    simpl; try reflexivity; lia.
Qed.

Lemma leb_min a b x : (x <=? Nat.min a b) = (x <=? a) && (x <=? b).
Proof.
  destruct (Nat.leb_spec x (Nat.min a b)), (Nat.leb_spec x a), (Nat.leb_spec x b);
    simpl; try reflexivity; lia.
Qed.

Lemma intersection_spec (a b : rect) :
  1 <= Rect.width a -> 1 <= Rect.height a -> 1 <= Rect.width b -> 1 <= Rect.height b ->
  match Rect.intersection a b with
  | Some r => 1 <= Rect.width r /\ 1 <= Rect.height r /\
      forall x y, Rect.contains r x y = Rect.contains a x y && Rect.contains b x y
  | None => forall x y, Rect.contains a x y && Rect.contains b x y = false
  end.
Proof.
  intros Ha1 Ha2 Hb1 Hb2. unfold Rect.intersection.
  destruct (Nat.leb_spec (Nat.max (Rect.left a) (Rect.left b))
              (Nat.min (Rect.right a) (Rect.right b))) as [Hl|Hl],
           (Nat.leb_spec (Nat.max (Rect.top a) (Rect.top b))
              (Nat.min (Rect.bottom a) (Rect.bottom b))) as [Ht|Ht]; cbn [andb].
  - split; [cbn; lia|]. split; [cbn; lia|]. intros x y.
    set (L := Nat.max (Rect.left a) (Rect.left b)) in *.
    set (T := Nat.max (Rect.top a) (Rect.top b)) in *.
    set (RT := Nat.min (Rect.right a) (Rect.right b)) in *.
    set (BT := Nat.min (Rect.bottom a) (Rect.bottom b)) in *.
    unfold Rect.contains at 1, Rect.right at 1, Rect.bottom at 1.
    cbn [Rect.left Rect.top Rect.width Rect.height].
    replace (L + (RT - L + 1) - 1) with RT by lia.
    replace (T + (BT - T + 1) - 1) with BT by lia.
    unfold L, T, RT, BT.
    rewrite !max_leb, !leb_min. unfold Rect.contains.
    destruct (Rect.left a <=? x), (Rect.left b <=? x), (Rect.top a <=? y), (Rect.top b <=? y),
      (x <=? Rect.right a), (x <=? Rect.right b), (y <=? Rect.bottom a), (y <=? Rect.bottom b);
      reflexivity.
  - intros x y. apply not_true_iff_false. rewrite andb_true_iff, !contains_spec.
    unfold Rect.right, Rect.bottom in *. lia.
  - intros x y. apply not_true_iff_false. rewrite andb_true_iff, !contains_spec.
    unfold Rect.right, Rect.bottom in *. lia.
  - intros x y. apply not_true_iff_false. rewrite andb_true_iff, !contains_spec.
    unfold Rect.right, Rect.bottom in *. lia.
Qed.

Lemma i64_add_ok a b :
  (- 2 ^ 63 <= a + b < 2 ^ 63)%Z -> i64_add a b = Some (a + b)%Z.
Proof.
  intro H. unfold i64_add.
  destruct (Z.leb_spec (- 2 ^ 63) (a + b)), (Z.ltb_spec (a + b) (2 ^ 63));
    simpl; try reflexivity; lia.
Qed.

Lemma contains_full w h x y :
  1 <= w -> 1 <= h -> Rect.contains (mk_rect 0 0 w h) x y = (x <? w) && (y <? h).
Proof.
  intros Hw Hh. unfold Rect.contains, Rect.right, Rect.bottom.
  cbn [Rect.left Rect.top Rect.width Rect.height].
  apply Bool.eq_iff_eq_true. rewrite !Bool.andb_true_iff, !Nat.leb_le, !Nat.ltb_lt. lia.
Qed.

Lemma translate_axis (W : nat) (L R : Z) :
  1 <= W -> (L <= R)%Z -> (L < Z.of_nat W)%Z -> (0 <= R)%Z ->
  let xl := if (L <? 0)%Z then 0 else Z.to_nat L in
  let e := Z.to_nat (Z.min (Z.of_nat W) (R + 1)) in
  xl <= e /\ e - xl <> 0 /\
  forall x : nat, xl <= x <= xl + (e - xl) - 1 <->
    x < W /\ (L <= Z.of_nat x <= R)%Z.
Proof.
  intros HW HLR HL HR xl e.
  assert (He : Z.of_nat e = Z.min (Z.of_nat W) (R + 1)) by (subst e; lia).
  assert (Hxl : Z.of_nat xl = Z.max L 0).
  { subst xl. destruct (Z.ltb_spec L 0); lia. }
  clearbody xl e.
  destruct (Z.min_spec (Z.of_nat W) (R + 1)) as [[_ Hm] | [_ Hm]];
    destruct (Z.max_spec L 0) as [[_ Hn] | [_ Hn]]; rewrite Hm in He; rewrite Hn in Hxl;
    (split; [lia | split; [lia | intro x; lia]]).
Qed.

Lemma nth_grid {C : Type} a b (F : nat -> nat -> C) x y d :
  x < a -> y < b -> nth (y * a + x) (grid a b F) d = F x y.
Proof.
  unfold grid. intros Hx. revert y.
  enough (forall s y, y < b ->
    nth (y * a + x) (concat (map (fun j => map (fun i => F i j) (seq 0 a)) (seq s b))) d
    = F x (s + y)) by (intros y Hy; rewrite H by exact Hy; reflexivity).
  induction b as [|b IH]; intros s y Hy; [lia|].
  cbn [seq map concat].
  destruct y as [|y].
  - rewrite app_nth1 by (rewrite length_map, length_seq; lia).
    rewrite (nth_indep _ d (F 0 s)) by (rewrite length_map, length_seq; lia).
    change (F 0 s) with ((fun i => F i s) 0).
    rewrite map_nth, seq_nth by lia. f_equal; lia.
  - rewrite app_nth2 by (rewrite length_map, length_seq; nia).
    rewrite length_map, length_seq.
    replace (S y * a + x - a) with (y * a + x) by nia.
    rewrite IH by lia. f_equal. lia.
Qed.

Lemma map_nth_seq_firstn {C : Type} (l : list C) n d :
  n <= length l -> map (fun x => nth x l d) (seq 0 n) = firstn n l.
Proof.
  revert l. induction n as [|n IH]; intros [|a l] H; simpl in *; try lia; auto.
  f_equal. rewrite <- seq_shift, map_map. apply IH. lia.
Qed.

Lemma grid_nth_list {C : Type} a b (v : list C) d :
  length v = b * a -> grid a b (fun x y => nth (y * a + x) v d) = v.
Proof.
  unfold grid. revert v. induction b as [|b IH]; intros v Hv.
  - destruct v; [reflexivity | simpl in Hv; discriminate].
  - cbn [seq map concat].
    rewrite <- seq_shift, map_map.
    transitivity (firstn a v ++ skipn a v); [|apply firstn_skipn].
    f_equal.
    + rewrite <- map_nth_seq_firstn with (d := d) by nia. reflexivity.
    + rewrite <- (IH (skipn a v)) by (rewrite length_skipn; nia).
      f_equal. apply map_ext. intro y. apply map_ext. intro x.
      rewrite nth_skipn. f_equal. lia.
Qed.

Lemma iter_is_grid {P : Type} (img : image P) : iter img = grid (width img) (height img) (pix img).
Proof. reflexivity. Qed.

Lemma iter_eq_spec {P : Type} (eqb : P -> P -> bool) :
  (forall a b, eqb a b = true <-> a = b) ->
  forall l1 l2, iter_eq eqb l1 l2 = true <-> l1 = l2.
Proof.
  intros He l1. induction l1 as [|a l1 IH]; intros [|b l2]; simpl;
    try (split; congruence).
  rewrite andb_true_iff, He, IH. split; [intros [-> ->]; reflexivity | intro E; injection E; auto].
Qed.

(** ** Padding pipelines that stop *)

(** Run a chain of [x <- m ;; k] whose continuation fails, trying [kill]
    on each step before splitting on its result. *)
Ltac none_through kill :=
  repeat match goal with
  | |- match ?m with Some _ => _ | None => None end = None =>
      first [kill; reflexivity | destruct m; [|reflexivity]]
  end;
  try (kill; reflexivity).

Lemma fill_view_dims {P : Type} (padded out : image P) r lines vals :
  Padding.fill_view P padded r lines vals = Some out ->
  width out = width padded /\ height out = height padded.
Proof.
  unfold Padding.fill_view. destruct (slice_ok padded r); [|discriminate].
  intro E. injection E as <-. rewrite assign_width, assign_height. auto.
Qed.

Lemma fill_corner_dims {P : Type} (padded out : image P) size x y v :
  Padding.fill_corner P padded size x y v = Some out ->
  width out = width padded /\ height out = height padded.
Proof.
  unfold Padding.fill_corner. destruct (Rect.new _ _ _ _); [|discriminate].
  apply fill_view_dims.
Qed.

(** ** Chunks and raw buffers *)

Lemma chunks_fuel_length {A : Type} n fuel (l : list A) :
  1 <= n -> length l <= fuel ->
  length (chunks_fuel fuel n l) = (length l + n - 1) / n.
Proof.
  intros Hn. revert l. induction fuel as [|fuel IH]; intros l Hl.
  - destruct l; [|simpl in Hl; lia]. simpl. symmetry. apply Nat.div_small. lia.
  - destruct l as [|a l'].
    + simpl. symmetry. apply Nat.div_small. lia.
    + remember (a :: l') as l eqn:El.
      assert (Hl1 : 1 <= length l) by (subst l; simpl; lia).
      rewrite El at 1. cbn [chunks_fuel length]. rewrite <- El.
      rewrite IH by (rewrite length_skipn; lia).
      rewrite length_skipn.
      destruct (Nat.le_gt_cases (length l) n).
      * replace (length l - n) with 0 by lia.
        rewrite (Nat.div_small (0 + n - 1)) by lia.
        replace (length l + n - 1) with (1 * n + (length l - 1)) by lia.
        rewrite Nat.div_add_l by lia. rewrite Nat.div_small by lia. lia.
      * replace (length l + n - 1) with (1 * n + (length l - n + n - 1)) by lia.
        rewrite Nat.div_add_l by lia. lia.
Qed.

Lemma chunks_fuel_nth {A : Type} n fuel (l : list A) i :
  i < length (chunks_fuel fuel n l) ->
  nth i (chunks_fuel fuel n l) [] = firstn n (skipn (i * n) l).
Proof.
  revert l i. induction fuel as [|fuel IH]; intros l i Hi.
  - simpl in Hi. lia.
  - destruct l as [|a l']; [simpl in Hi; lia|].
    cbn [chunks_fuel length] in *.
    destruct i as [|i]; [reflexivity|].
    cbn [nth].
    rewrite IH by lia.
    rewrite skipn_skipn. f_equal. f_equal. lia.
Qed.

Lemma chunks_fuel_concat {A : Type} n fuel (l : list A) :
  1 <= n -> length l <= fuel -> concat (chunks_fuel fuel n l) = l.
Proof.
  intros Hn. revert l. induction fuel as [|fuel IH]; intros l Hl.
  - destruct l; [reflexivity | simpl in Hl; lia].
  - destruct l as [|a l']; [reflexivity|].
    remember (a :: l') as l eqn:El.
    assert (Hl1 : 1 <= length l) by (subst l; simpl; lia).
    rewrite El at 1. cbn [chunks_fuel concat]. rewrite <- El.
    rewrite IH by (rewrite length_skipn; lia).
    apply firstn_skipn.
Qed.

Lemma chunks_fuel_full {A : Type} n fuel (l : list A) k c :
  length l = k * n -> In c (chunks_fuel fuel n l) -> length c = n.
Proof.
  revert l k. induction fuel as [|fuel IH]; intros l k Hk Hin; [contradiction|].
  destruct l as [|a l']; [contradiction|].
  remember (a :: l') as l eqn:El.
  assert (Hl1 : 1 <= length l) by (subst l; simpl; lia).
  rewrite El in Hin. cbn [chunks_fuel] in Hin. rewrite <- El in Hin.
  destruct k as [|k]; [lia|].
  destruct Hin as [<- | Hin].
  - rewrite length_firstn. lia.
  - apply (IH (skipn n l) k); [rewrite length_skipn; lia | exact Hin].
Qed.

Lemma zip_assign_nil {A : Type} (data : list A) : Pixel.zip_assign data [] = data.
Proof. destruct data; reflexivity. Qed.

Lemma from_slice_full {A : Type} (z : A) n (c : list A) :
  length c = n -> Pixel.from_slice z n c = c.
Proof.
  unfold Pixel.from_slice. intros <-. induction c as [|a c IH]; [reflexivity|].
  simpl. f_equal. exact IH.
Qed.

(** ** Totality of the convolution steps *)

Lemma list_opt_map_total {A B : Type} (f : A -> option B) l :
  (forall a, In a l -> f a <> None) ->
  exists l', list_opt (map f l) = Some l' /\ Forall2 (fun a b => f a = Some b) l l'.
Proof.
  induction l as [|a l IH]; intro H; [exists []; split; [reflexivity | constructor]|].
  cbn [map list_opt].
  destruct (f a) as [b|] eqn:Ea; [|exfalso; apply (H a); [left; reflexivity | exact Ea]].
  destruct IH as (l' & E & F); [intros a' Ha'; apply H; right; exact Ha'|].
  rewrite E. exists (b :: l'). split; [reflexivity|]. constructor; assumption.
Qed.

Lemma Forall2_in_r {A B : Type} (R : A -> B -> Prop) l l' b :
  Forall2 R l l' -> In b l' -> exists a, In a l /\ R a b.
Proof.
  intro F. induction F as [|a b' l l' Hab F IH]; intro Hb; [contradiction|].
  destruct Hb as [<- | Hb].
  - exists a. split; [left; reflexivity | exact Hab].
  - destruct (IH Hb) as (a' & Ha' & R'). exists a'. split; [right; exact Ha' | exact R'].
Qed.

Lemma length_concat_const {A : Type} (ls : list (list A)) n :
  (forall l, In l ls -> length l = n) -> length (concat ls) = length ls * n.
Proof.
  induction ls as [|l ls IH]; intro H; [reflexivity|].
  cbn [concat length]. rewrite length_app, IH by (intros; apply H; right; assumption).
  rewrite (H l) by (left; reflexivity). lia.
Qed.

Lemma padding_apply_empty {P : Type} (zero : P) pad (img : image P) size :
  width img = 0 \/ height img = 0 -> Padding.apply zero pad img size = None.
Proof.
  intro H.
  assert (Hc : forall val, Padding.pad_constant img size val = None).
  { intro val. apply pad_constant_empty. exact H. }
  destruct pad as [p| | |]; cbn [Padding.apply].
  - apply Hc.
  - unfold Padding.pad_replicate, Padding.pad_zeros. destruct size. rewrite Hc. reflexivity.
  - unfold Padding.pad_wrap, Padding.pad_zeros. destruct size. rewrite Hc. reflexivity.
  - unfold Padding.pad_mirror, Padding.pad_zeros. destruct size. rewrite Hc. reflexivity.
Qed.

(** * Claims *)

(** ** Padding *)

(** C3 (as amended). For [1 <= r <= min(w, h)] with [w + 2r] and
    [h + 2r] below [2^32] (the [u32] sizes of the padded buffer),
    [pad_mirror] returns a
    [(w + 2r) x (h + 2r)] image whose margins reflect the source about its
    border including the border pixel itself: the padded pixel [(X, Y)] is
    the source pixel [(mirror_index w r X, mirror_index h r Y)], where
    [mirror_index n r X] is [r - 1 - X] in the low margin and
    [2n + r - 1 - X] in the high one. A row [[a, b, c, d, e]] padded with
    [r = 2] reads [[b, a | a, b, c, d, e | e, d]]. *)
Theorem C3_mirror_reflects_border (P : Type) (zero : P) (img : image P) r :
  1 <= r -> r <= width img -> r <= height img ->
  (Z.of_nat (width img + 2 * r) < 2 ^ 32)%Z -> (Z.of_nat (height img + 2 * r) < 2 ^ 32)%Z ->
  exists out, Padding.pad_mirror zero img (r, r) = Some out /\
  width out = width img + 2 * r /\ height out = height img + 2 * r /\
  forall X Y, X < width img + 2 * r -> Y < height img + 2 * r ->
  pix out X Y = pix img (mirror_index (width img) r X) (mirror_index (height img) r Y).
Proof. intros Hr Hw Hh Bw Bh. exact (pad_mirror_char P zero img r Hr Hw Hh Bw Bh). Qed.

Lemma C3_mirror_reflects_border_witness :
  1 <= 2 /\ 2 <= width abcde_image /\ 2 <= height abcde_image /\
  (Z.of_nat (width abcde_image + 2 * 2) < 2 ^ 32)%Z /\ (Z.of_nat (height abcde_image + 2 * 2) < 2 ^ 32)%Z /\
  exists out, Padding.pad_mirror 0 abcde_image (2, 2) = Some out /\
  width out = width abcde_image + 2 * 2 /\ height out = height abcde_image + 2 * 2 /\
  forall X Y, X < width abcde_image + 2 * 2 -> Y < height abcde_image + 2 * 2 ->
  pix out X Y = pix abcde_image (mirror_index (width abcde_image) 2 X)
                  (mirror_index (height abcde_image) 2 Y).
Proof.
  split; [lia|]. split; [simpl; lia|]. split; [simpl; lia|].
  split; [vm_compute; reflexivity|]. split; [vm_compute; reflexivity|].
  apply (C3_mirror_reflects_border nat 0 abcde_image 2);
    [simpl; lia .. | vm_compute; reflexivity | vm_compute; reflexivity].
Defined.

(** C3 counterexample: the row [[a, b, c, d, e]] = [[1, 2, 3, 4, 5]] of a
    [5 x 2] image padded with radius 2 in mirror mode reads
    [[b, a | a, b, c, d, e | e, d]], not [[c, b | a, b, c, d, e | d, c]]. *)
Lemma C3_mirror_row_example :
  exists out, Padding.pad_mirror 0 abcde_image (2, 2) = Some out /\
  map (fun X => pix out X 2) (seq 0 9) = [2; 1; 1; 2; 3; 4; 5; 5; 4] /\
  map (fun X => pix out X 2) (seq 0 9) <> [3; 2; 1; 2; 3; 4; 5; 4; 3].
Proof.
  exists (match Padding.pad_mirror 0 abcde_image (2, 2) with
          | Some o => o | None => abcde_image end).
  vm_compute. split; [reflexivity|]. split; [reflexivity | discriminate].
Qed.

(** C5. On a non-empty image, for every padding mode and every radius
    [r] the mode admits, with [w + 2r] and [h + 2r] below [2^32] (the
    [u32] sizes of the padded buffer), [Padding::apply] returns a
    [(w + 2r) x (h + 2r)] image whose pixel [(x + r, y + r)] is the source
    pixel [(x, y)] for every [x < w], [y < h]. The admissible radii are
    every [r] for constant padding, [r >= 1] for replicate padding and
    [1 <= r <= min(w, h)] for wrap and mirror padding (C9: outside these,
    or on an empty image, the padding panics). *)
Theorem C5_padding_interior (P : Type) (zero : P) (pad : Padding.padding P)
  (img : image P) r :
  1 <= width img -> 1 <= height img ->
  (Z.of_nat (width img + 2 * r) < 2 ^ 32)%Z -> (Z.of_nat (height img + 2 * r) < 2 ^ 32)%Z ->
  match pad with
  | Padding.Constant _ => True
  | Padding.Replicate => 1 <= r
  | Padding.Wrap | Padding.Mirror => 1 <= r /\ r <= width img /\ r <= height img
  end ->
  exists out, Padding.apply zero pad img (r, r) = Some out /\
  width out = width img + 2 * r /\ height out = height img + 2 * r /\
  forall x y, x < width img -> y < height img -> pix out (x + r) (y + r) = pix img x y.
Proof.
  intros Hw Hh Bw Bh Hr.
  destruct pad as [val | | |]; simpl.
  - destruct (pad_constant_ok img r r val) as (out & E & W & H & Pix);
      [lia | lia | assumption | assumption |].
    exists out. repeat split; auto.
    intros x y Hx Hy. rewrite Pix. decide_rects.
  - destruct (pad_replicate_char P zero img r) as (out & E & W & H & Pix);
      [lia | lia | lia | assumption | assumption |].
    exists out. repeat split; auto.
    intros x y Hx Hy. rewrite Pix by lia. unfold clamp_index. decide_rects.
  - destruct (pad_wrap_char P zero img r) as (out & E & W & H & Pix);
      [lia | lia | lia | assumption | assumption |].
    exists out. repeat split; auto.
    intros x y Hx Hy. rewrite Pix by lia. unfold wrap_index. decide_rects.
  - destruct (pad_mirror_char P zero img r) as (out & E & W & H & Pix);
      [lia | lia | lia | assumption | assumption |].
    exists out. repeat split; auto.
    intros x y Hx Hy. rewrite Pix by lia. unfold mirror_index. decide_rects.
Qed.

Lemma C5_padding_interior_witness :
  1 <= width abcde_image /\ 1 <= height abcde_image /\
  (Z.of_nat (width abcde_image + 2 * 3) < 2 ^ 32)%Z /\
  (Z.of_nat (height abcde_image + 2 * 3) < 2 ^ 32)%Z /\
  1 <= 3 /\
  exists out, Padding.apply 0 Padding.Replicate abcde_image (3, 3) = Some out /\
  width out = width abcde_image + 2 * 3 /\ height out = height abcde_image + 2 * 3 /\
  forall x y, x < width abcde_image -> y < height abcde_image ->
  pix out (x + 3) (y + 3) = pix abcde_image x y.
Proof.
  split; [simpl; lia|]. split; [simpl; lia|].
  split; [vm_compute; reflexivity|]. split; [vm_compute; reflexivity|].
  split; [lia|].
  apply (C5_padding_interior nat 0 Padding.Replicate abcde_image 3);
    [simpl; lia | simpl; lia | vm_compute; reflexivity | vm_compute; reflexivity | simpl; lia].
Defined.

(** C7. For [1 <= r <= min(w, h)] with [w + 2r] and [h + 2r] below
    [2^32] (the [u32] sizes of the padded buffer), [pad_wrap] returns a
    [(w + 2r) x (h + 2r)] image whose pixel [(X, Y)] is the source pixel
    [(wrap_index w r X, wrap_index h r Y)]: the left margin ([X < r]) reads
    the rightmost [r] columns ([w - r + X]), the right margin
    ([X >= w + r]) the leftmost ones ([X - r - w]), the top margin the
    bottom [r] rows and the bottom margin the top ones; a corner combines
    both, i.e. comes from the opposite corner. *)
Theorem C7_wrap_toroidal (P : Type) (zero : P) (img : image P) r :
  1 <= r -> r <= width img -> r <= height img ->
  (Z.of_nat (width img + 2 * r) < 2 ^ 32)%Z -> (Z.of_nat (height img + 2 * r) < 2 ^ 32)%Z ->
  exists out, Padding.pad_wrap zero img (r, r) = Some out /\
  width out = width img + 2 * r /\ height out = height img + 2 * r /\
  forall X Y, X < width img + 2 * r -> Y < height img + 2 * r ->
  pix out X Y = pix img (wrap_index (width img) r X) (wrap_index (height img) r Y).
Proof. intros Hr Hw Hh Bw Bh. exact (pad_wrap_char P zero img r Hr Hw Hh Bw Bh). Qed.

Lemma C7_wrap_toroidal_witness :
  1 <= 1 /\ 1 <= width width4_image /\ 1 <= height width4_image /\
  (Z.of_nat (width width4_image + 2 * 1) < 2 ^ 32)%Z /\ (Z.of_nat (height width4_image + 2 * 1) < 2 ^ 32)%Z /\
  exists out, Padding.pad_wrap 0 width4_image (1, 1) = Some out /\
  width out = width width4_image + 2 * 1 /\ height out = height width4_image + 2 * 1 /\
  forall X Y, X < width width4_image + 2 * 1 -> Y < height width4_image + 2 * 1 ->
  pix out X Y = pix width4_image (wrap_index (width width4_image) 1 X)
                  (wrap_index (height width4_image) 1 Y).
Proof.
  split; [lia|]. split; [simpl; lia|]. split; [simpl; lia|].
  split; [vm_compute; reflexivity|]. split; [vm_compute; reflexivity|].
  apply (C7_wrap_toroidal nat 0 width4_image 1);
    [simpl; lia .. | vm_compute; reflexivity | vm_compute; reflexivity].
Defined.

(** C9 (as amended). On a non-empty image and a padding size [(r, r)]:
    [pad_wrap] and [pad_mirror] panic exactly when [r = 0], [r] exceeds
    the width or the height, or the padded size [w + 2r] or [h + 2r]
    overflows [u32]; [pad_replicate] panics exactly when [r = 0] or the
    padded size overflows, and succeeds for every other [r >= 1], also
    larger than the image. *)
Theorem C9_padding_domain (P : Type) (zero : P) (img : image P) r :
  1 <= width img -> 1 <= height img ->
  (Padding.pad_wrap zero img (r, r) = None <->
     r = 0 \/ width img < r \/ height img < r \/
     (2 ^ 32 <= Z.of_nat (width img + 2 * r))%Z \/
     (2 ^ 32 <= Z.of_nat (height img + 2 * r))%Z) /\
  (Padding.pad_mirror zero img (r, r) = None <->
     r = 0 \/ width img < r \/ height img < r \/
     (2 ^ 32 <= Z.of_nat (width img + 2 * r))%Z \/
     (2 ^ 32 <= Z.of_nat (height img + 2 * r))%Z) /\
  (Padding.pad_replicate zero img (r, r) = None <->
     r = 0 \/
     (2 ^ 32 <= Z.of_nat (width img + 2 * r))%Z \/
     (2 ^ 32 <= Z.of_nat (height img + 2 * r))%Z).
Proof.
  intros Hw Hh. split; [|split]; split.
  - intro E.
    destruct (Nat.eq_dec r 0); [now left|].
    destruct (Nat.lt_ge_cases (width img) r); [right; now left|].
    destruct (Nat.lt_ge_cases (height img) r); [right; right; now left|].
    destruct (Z.lt_ge_cases (Z.of_nat (width img + 2 * r)) (2 ^ 32));
      [|right; right; right; now left].
    destruct (Z.lt_ge_cases (Z.of_nat (height img + 2 * r)) (2 ^ 32));
      [|right; right; right; now right].
    destruct (pad_wrap_char P zero img r) as (out & Eo & _);
      [lia | lia | lia | assumption | assumption |].
    congruence.
  - intros [H | [H | [H | H]]]; [apply pad_wrap_fails; lia .. |].
    exact (proj1 (pad_modes_overflow zero img r r H)).
  - intro E.
    destruct (Nat.eq_dec r 0); [now left|].
    destruct (Nat.lt_ge_cases (width img) r); [right; now left|].
    destruct (Nat.lt_ge_cases (height img) r); [right; right; now left|].
    destruct (Z.lt_ge_cases (Z.of_nat (width img + 2 * r)) (2 ^ 32));
      [|right; right; right; now left].
    destruct (Z.lt_ge_cases (Z.of_nat (height img + 2 * r)) (2 ^ 32));
      [|right; right; right; now right].
    destruct (pad_mirror_char P zero img r) as (out & Eo & _);
      [lia | lia | lia | assumption | assumption |].
    congruence.
  - intros [H | [H | [H | H]]]; [apply pad_mirror_fails; lia .. |].
    exact (proj1 (proj2 (pad_modes_overflow zero img r r H))).
  - intro E.
    destruct (Nat.eq_dec r 0); [now left|].
    destruct (Z.lt_ge_cases (Z.of_nat (width img + 2 * r)) (2 ^ 32)); [|right; now left].
    destruct (Z.lt_ge_cases (Z.of_nat (height img + 2 * r)) (2 ^ 32)); [|right; now right].
    destruct (pad_replicate_char P zero img r) as (out & Eo & _);
      [lia | lia | lia | assumption | assumption |].
    congruence.
  - intros [H | H]; [apply pad_replicate_fails; lia|].
    exact (proj2 (proj2 (pad_modes_overflow zero img r r H))).
Qed.

Lemma C9_padding_domain_witness :
  1 <= width unit_image /\ 1 <= height unit_image /\
  (Padding.pad_wrap 0 unit_image (2, 2) = None <->
     2 = 0 \/ width unit_image < 2 \/ height unit_image < 2 \/
     (2 ^ 32 <= Z.of_nat (width unit_image + 2 * 2))%Z \/
     (2 ^ 32 <= Z.of_nat (height unit_image + 2 * 2))%Z) /\
  (Padding.pad_mirror 0 unit_image (2, 2) = None <->
     2 = 0 \/ width unit_image < 2 \/ height unit_image < 2 \/
     (2 ^ 32 <= Z.of_nat (width unit_image + 2 * 2))%Z \/
     (2 ^ 32 <= Z.of_nat (height unit_image + 2 * 2))%Z) /\
  (Padding.pad_replicate 0 unit_image (2, 2) = None <->
     2 = 0 \/
     (2 ^ 32 <= Z.of_nat (width unit_image + 2 * 2))%Z \/
     (2 ^ 32 <= Z.of_nat (height unit_image + 2 * 2))%Z).
Proof.
  split; [simpl; lia|]. split; [simpl; lia|].
  apply (C9_padding_domain nat 0 unit_image 2); simpl; lia.
Defined.

(** C9 counterexample: [pad_replicate] with padding size [(2, 2)] on a
    [1 x 1] image returns normally, although the size exceeds both the
    width and the height. *)
Lemma C9_replicate_large_radius :
  width unit_image < 2 /\ height unit_image < 2 /\
  exists out, Padding.pad_replicate 0 unit_image (2, 2) = Some out /\
  width out = 5 /\ height out = 5.
Proof.
  split; [simpl; lia|]. split; [simpl; lia|].
  exists (match Padding.pad_replicate 0 unit_image (2, 2) with
          | Some o => o | None => unit_image end).
  vm_compute. split; [reflexivity|]. split; reflexivity.
Qed.

(** ** Pixels *)

(** C8. [Pixel::from_slice] and [Pixel::set_to_slice] return a pixel for
    every slice: [from_slice] gives [N] channels, the [i]-th being [s[i]]
    when [i < min(N, s.len())] and zero otherwise; [set_to_slice] keeps the
    channel count, and its [i]-th channel is [s[i]] when
    [i < min(N, s.len())] and the old channel otherwise. Extra elements of
    [s] are ignored. *)
Theorem C8_from_slice_set_to_slice_total (Subpixel : Type) (zero : Subpixel)
  (n : nat) (data s : list Subpixel) (i : nat) :
  length (Pixel.from_slice zero n s) = n /\
  nth i (Pixel.from_slice zero n s) zero =
    (if i <? Nat.min n (length s) then nth i s zero else zero) /\
  length (Pixel.set_to_slice data s) = length data /\
  nth i (Pixel.set_to_slice data s) zero =
    (if i <? Nat.min (length data) (length s) then nth i s zero else nth i data zero).
Proof.
  unfold Pixel.from_slice, Pixel.set_to_slice.
  rewrite !zip_assign_length, !zip_assign_nth, repeat_length, nth_repeat_same.
  repeat split; reflexivity.
Qed.

(** C10. The provided [Pixel::clamp(low, high)] leaves the pixel as it
    was: when it returns, every channel is unchanged; it can only panic
    (through [num_traits::clamp]'s [debug_assert!]) when [low <= high]
    fails. *)
Theorem C10_clamp_leaves_pixel (Subpixel : Type) (le lt : Subpixel -> Subpixel -> bool)
  (data : list Subpixel) (low high : Subpixel) :
  match Pixel.clamp le lt data low high with
  | Some d => d = data
  | None => le low high = false
  end.
Proof.
  unfold Pixel.clamp.
  destruct (Pixel.count_map (fun c => Pixel.num_clamp le lt c low high) data) eqn:E;
    [reflexivity|].
  apply count_map_none in E as (c & _ & Hc).
  unfold Pixel.num_clamp in Hc. destruct (le low high); [discriminate | reflexivity].
Qed.

(** ** Convolution *)

Section ConvolveClaims.

Variables S T O : Type.
Variable s_zero s_min s_max : S.
Variable t_zero : T.
Variables t_add t_mul : T -> T -> T.
Variables t_le t_lt : T -> T -> bool.
Variable cast_st : S -> option T.
Variable cast_to : T -> option O.
Variable o_zero : O.
Variables n_channels n_out : nat.

(** C4. When [convolve] returns, the output has the input's dimensions and
    each output pixel [(x, y)] is [Po::from_slice] of the channel sums
    [acc] of its window, each clamped into [[mn, mx]] with
    [mn = T::from(S::min_value())] and [mx = T::from(S::max_value())] (the
    bounds of the source subpixel type [S]) and then cast to [O], a failed
    cast giving [O::zero()]. *)
Theorem C4_convolve_clamps_source_bounds (k : kernel T) (img : image (list S))
  (pad : Padding.padding (list S)) (out : image (list O)) (mn mx : T) :
  cast_st s_min = Some mn -> cast_st s_max = Some mx ->
  convolve S T O s_zero s_min s_max t_zero t_add t_mul t_le t_lt cast_st cast_to
    o_zero n_channels n_out k img pad = Some out ->
  width out = width img /\ height out = height img /\
  forall x y, x < width img -> y < height img ->
  exists padded acc,
    Padding.apply (repeat s_zero n_channels) pad img (radius T k, radius T k) = Some padded /\
    window_sums S T t_zero t_add t_mul cast_st n_channels k padded
      (width img) (height img) x y = Some acc /\
    pix out x y = Pixel.from_slice o_zero n_out
      (map (fun i => cast_or_zero T O cast_to o_zero
                       (Pixel.clamp_val t_lt (nth i acc t_zero) mn mx))
           (seq 0 n_channels)).
Proof.
  intros Hmn Hmx Hc. unfold convolve in Hc.
  destruct (Padding.apply (repeat s_zero n_channels) pad img (radius T k, radius T k))
    as [padded|] eqn:Ep; [|discriminate].
  repeat match type of Hc with
  | match ?m with Some _ => _ | None => None end = _ => destruct m; [|discriminate]
  end.
  match type of Hc with
  | (if ?b then _ else _) = _ => destruct b eqn:Ef; [|discriminate]
  end.
  injection Hc as <-. split; [reflexivity|]. split; [reflexivity|].
  intros x y Hx Hy. exists padded.
  rewrite forallb_forall in Ef.
  specialize (Ef (x, y) (proj2 (in_scan _ _ x y) (conj Hx Hy))).
  cbv beta iota in Ef. cbn [pix].
  destruct (conv_pixel S T O s_min s_max t_zero t_add t_mul t_le t_lt cast_st cast_to
              o_zero n_channels n_out k padded (width img) (height img) x y)
    as [q|] eqn:Ecp; [|discriminate].
  unfold conv_pixel in Ecp.
  destruct (window_sums S T t_zero t_add t_mul cast_st n_channels k padded
              (width img) (height img) x y) as [acc|] eqn:Ew; [|discriminate].
  destruct (to_output S T O s_min s_max t_zero t_le t_lt cast_st cast_to o_zero
              n_channels acc) as [o|] eqn:Eo; [|discriminate].
  injection Ecp as <-.
  exists acc. split; [reflexivity|]. split; [reflexivity|]. f_equal.
  unfold to_output in Eo. eapply list_opt_map_char; [|exact Eo].
  intros i b _ Hb. cbv beta in Hb. rewrite Hmx, Hmn in Hb.
  unfold Pixel.num_clamp in Hb. destruct (t_le mn mx); [|discriminate].
  injection Hb as <-. reflexivity.
Qed.

End ConvolveClaims.

(** C4 at [S = u8], [T = Q], [O = i8]: the [1 x 1] image of value 200
    convolved with the kernel [[1]]. *)
Lemma C4_convolve_clamps_source_bounds_witness :
  q_of_Z u8_min = Some (inject_Z 0) /\ q_of_Z u8_max = Some (inject_Z 255) /\
  convolve_u8_i8 one_kernel pix200_image (Padding.Constant [0%Z]) = Some i8_out /\
  width i8_out = width pix200_image /\ height i8_out = height pix200_image /\
  forall x y, x < width pix200_image -> y < height pix200_image ->
  exists padded acc,
    Padding.apply (repeat 0%Z 1) (Padding.Constant [0%Z]) pix200_image
      (radius Q one_kernel, radius Q one_kernel) = Some padded /\
    window_sums Z Q 0%Q Qplus Qmult q_of_Z 1 one_kernel padded
      (width pix200_image) (height pix200_image) x y = Some acc /\
    pix i8_out x y = Pixel.from_slice 0%Z 1
      (map (fun i => cast_or_zero Q Z (cast_q_int i8_min i8_max) 0%Z
                       (Pixel.clamp_val q_lt (nth i acc 0%Q) (inject_Z 0) (inject_Z 255)))
           (seq 0 1)).
Proof.
  assert (Hc : convolve_u8_i8 one_kernel pix200_image (Padding.Constant [0%Z]) = Some i8_out).
  { unfold i8_out.
    destruct (convolve_u8_i8 one_kernel pix200_image (Padding.Constant [0%Z])) eqn:E;
      [reflexivity | vm_compute in E; discriminate]. }
  split; [reflexivity|]. split; [reflexivity|]. split; [exact Hc|].
  apply (C4_convolve_clamps_source_bounds Z Q Z 0%Z u8_min u8_max 0%Q Qplus Qmult
           Qle_bool q_lt q_of_Z (cast_q_int i8_min i8_max) 0%Z 1 1
           one_kernel pix200_image (Padding.Constant [0%Z]) i8_out (inject_Z 0) (inject_Z 255));
    [reflexivity | reflexivity | exact Hc].
Defined.

(** The same convolution: the sum 200 is kept by the [u8] bounds, does not
    fit [i8], and the output channel is [O::zero()]; clamping into the
    [i8] bounds instead would have given 127. *)
Lemma convolve_u8_i8_example :
  pix i8_out 0 0 = [0%Z] /\
  cast_or_zero Q Z (cast_q_int i8_min i8_max) 0%Z
    (Pixel.clamp_val q_lt (inject_Z 200) (inject_Z i8_min) (inject_Z i8_max)) = 127%Z.
Proof. split; vm_compute; reflexivity. Qed.

(** C1 (the source diverges): the window of output pixel [(x, y)] is
    [Rect::new(x, y, d, d)] cropped to the un-padded image, not the full
    [d x d] window of the padded buffer. With the [3 x 3] identity kernel,
    replicate padding and the image [1..9], the cropped window of the
    centre pixel is [2 x 2] and is paired with the kernel's first four
    (zero) weights: the output there is 0, while the full window centred
    on the input pixel of value 5 gives 5. *)
Theorem C1_convolve_window_cropped :
  exists out padded,
    convolve_u8 identity_kernel nine_image Padding.Replicate = Some out /\
    Padding.apply [0%Z] Padding.Replicate nine_image (1, 1) = Some padded /\
    width out = 3 /\ height out = 3 /\
    pix nine_image 1 1 = [5%Z] /\
    pix out 1 1 = [0%Z] /\
    conv_pixel_full_u8 identity_kernel padded 1 1 = Some [5%Z].
Proof.
  exists (match convolve_u8 identity_kernel nine_image Padding.Replicate with
          | Some o => o | None => nine_image end).
  exists (match Padding.apply [0%Z] Padding.Replicate nine_image (1, 1) with
          | Some o => o | None => nine_image end).
  vm_compute. repeat split; reflexivity.
Qed.

(** C2 (the source diverges): [Kernel::box_(1)] on a constant [3 x 3]
    image of value 9 with replicate padding keeps 9 only at the top-left
    pixel: the centre pixel is 4 and the bottom-right one 1, far from 9
    beyond any rounding. *)
Theorem C2_box_kernel_constant_image :
  exists k out,
    box_ Q q_recip 1 = Some k /\
    convolve_u8 k const9_image Padding.Replicate = Some out /\
    pix const9_image 1 1 = [9%Z] /\
    pix out 0 0 = [9%Z] /\ pix out 1 1 = [4%Z] /\ pix out 2 2 = [1%Z].
Proof.
  exists (match box_ Q q_recip 1 with Some k => k | None => one_kernel end).
  exists (match box_ Q q_recip 1 with
          | Some k =>
              match convolve_u8 k const9_image Padding.Replicate with
              | Some o => o | None => const9_image end
          | None => const9_image
          end).
  vm_compute. repeat split; reflexivity.
Qed.

(** ** Constructors *)

(** C6 (the source diverges): [from_raw_vec] for a three-channel pixel
    type ([Rgb]) compares [w * h] with the number of [chunks(3)] of [v],
    which rounds up: with [w = h = 1] and [v = [1, 2]] ([v.len() = 2],
    not [3 * 1 * 1]) it succeeds, with the pixel [[1, 2, 0]], whose
    flattening is not [v]. *)
Theorem C6_from_raw_vec_short_buffer :
  exists img,
    from_raw_vec 0%Z 3 1 1 [1; 2]%Z = Some (Ok img) /\
    length [1; 2]%Z <> 3 * 1 * 1 /\
    to_rows img = [[[1; 2; 0]%Z]] /\
    concat (concat (to_rows img)) <> [1; 2]%Z.
Proof.
  exists (match from_raw_vec 0%Z 3 1 1 [1; 2]%Z with
          | Some (Ok i) => i | _ => pix200_image end).
  vm_compute. split; [reflexivity|]. split; [discriminate|].
  split; [reflexivity | discriminate].
Qed.

(** * Further properties of the code *)

(** ** Rectangles ([core/rect.rs]) *)

(** [Rect::intersection] of two non-empty rectangles whose [right()] and
    [bottom()] do not overflow ([left + width] and [top + height] below
    [2^32]) contains exactly the points that [Region::contains] finds in
    both; it is [None] exactly when no point lies in both. *)
Theorem intersection_contains (a b : rect) :
  1 <= Rect.width a -> 1 <= Rect.height a -> 1 <= Rect.width b -> 1 <= Rect.height b ->
  (Z.of_nat (Rect.left a + Rect.width a) < 2 ^ 32)%Z ->
  (Z.of_nat (Rect.top a + Rect.height a) < 2 ^ 32)%Z ->
  (Z.of_nat (Rect.left b + Rect.width b) < 2 ^ 32)%Z ->
  (Z.of_nat (Rect.top b + Rect.height b) < 2 ^ 32)%Z ->
  match Rect.intersection a b with
  | Some r => 1 <= Rect.width r /\ 1 <= Rect.height r /\
      forall x y, Rect.contains r x y = Rect.contains a x y && Rect.contains b x y
  | None => forall x y, Rect.contains a x y && Rect.contains b x y = false
  end.
Proof. intros H1 H2 H3 H4 _ _ _ _. exact (intersection_spec a b H1 H2 H3 H4). Qed.

Lemma intersection_contains_witness :
  1 <= 3 /\ 1 <= 3 /\ 1 <= 3 /\ 1 <= 3 /\
  (Z.of_nat (0 + 3) < 2 ^ 32)%Z /\ (Z.of_nat (0 + 3) < 2 ^ 32)%Z /\
  (Z.of_nat (2 + 3) < 2 ^ 32)%Z /\ (Z.of_nat (1 + 3) < 2 ^ 32)%Z /\
  match Rect.intersection (mk_rect 0 0 3 3) (mk_rect 2 1 3 3) with
  | Some r => 1 <= Rect.width r /\ 1 <= Rect.height r /\
      forall x y, Rect.contains r x y =
                  Rect.contains (mk_rect 0 0 3 3) x y && Rect.contains (mk_rect 2 1 3 3) x y
  | None => forall x y,
      Rect.contains (mk_rect 0 0 3 3) x y && Rect.contains (mk_rect 2 1 3 3) x y = false
  end.
Proof.
  split; [lia|]. split; [lia|]. split; [lia|]. split; [lia|].
  do 4 (split; [vm_compute; reflexivity|]).
  apply (intersection_contains (mk_rect 0 0 3 3) (mk_rect 2 1 3 3));
    [simpl; lia .. | vm_compute; reflexivity | vm_compute; reflexivity
    | vm_compute; reflexivity | vm_compute; reflexivity].
Defined.

(** [Rect::crop_to_image] panics (through [Rect::new]) on an empty image;
    on a non-empty [w x h] image ([w], [h] below [2^32]) and a non-empty
    rectangle whose [right()] and [bottom()] do not overflow ([left + width]
    and [top + height] below [2^32]) it keeps exactly the points of the
    rectangle that lie in the image, and is [None] exactly when there is
    none. *)
Theorem crop_to_image_contains (r : rect) w h :
  1 <= Rect.width r -> 1 <= Rect.height r ->
  (Z.of_nat (Rect.left r + Rect.width r) < 2 ^ 32)%Z ->
  (Z.of_nat (Rect.top r + Rect.height r) < 2 ^ 32)%Z ->
  (Z.of_nat w < 2 ^ 32)%Z -> (Z.of_nat h < 2 ^ 32)%Z ->
  (w = 0 \/ h = 0 -> crop_to_image r w h = None) /\
  (1 <= w -> 1 <= h ->
   match crop_to_image r w h with
   | Some (Some c) => forall x y, Rect.contains c x y = Rect.contains r x y && (x <? w) && (y <? h)
   | Some None => forall x y, Rect.contains r x y && (x <? w) && (y <? h) = false
   | None => False
   end).
Proof.
  intros Hr1 Hr2 _ _ _ _. split.
  - intro H. unfold crop_to_image. rewrite rect_new_none by assumption. reflexivity.
  - intros Hw Hh. unfold crop_to_image. rewrite rect_new_ok by lia.
    pose proof (intersection_spec r (mk_rect 0 0 w h) Hr1 Hr2 Hw Hh) as Hi.
    destruct (Rect.intersection r (mk_rect 0 0 w h)) as [c|].
    + destruct Hi as (_ & _ & Hc). intros x y.
      rewrite Hc, contains_full by assumption. apply andb_assoc.
    + intros x y. rewrite <- andb_assoc, <- contains_full by assumption. apply Hi.
Qed.

Lemma crop_to_image_contains_witness :
  1 <= 3 /\ 1 <= 3 /\
  (Z.of_nat (2 + 3) < 2 ^ 32)%Z /\ (Z.of_nat (1 + 3) < 2 ^ 32)%Z /\
  (Z.of_nat 4 < 2 ^ 32)%Z /\ (Z.of_nat 2 < 2 ^ 32)%Z /\
  ((4 = 0 \/ 2 = 0 -> crop_to_image (mk_rect 2 1 3 3) 4 2 = None) /\
   (1 <= 4 -> 1 <= 2 ->
    match crop_to_image (mk_rect 2 1 3 3) 4 2 with
    | Some (Some c) => forall x y, Rect.contains c x y =
        Rect.contains (mk_rect 2 1 3 3) x y && (x <? 4) && (y <? 2)
    | Some None => forall x y, Rect.contains (mk_rect 2 1 3 3) x y && (x <? 4) && (y <? 2) = false
    | None => False
    end)).
Proof.
  split; [lia|]. split; [lia|].
  do 4 (split; [vm_compute; reflexivity|]).
  apply (crop_to_image_contains (mk_rect 2 1 3 3) 4 2);
    [simpl; lia .. | vm_compute; reflexivity | vm_compute; reflexivity
    | vm_compute; reflexivity | vm_compute; reflexivity].
Defined.

(** ** The image API ([core/image2d.rs]) *)

Section TranslateRect.

Variable P : Type.

(** [Image2D::translate_rect] of a non-empty [u32] rectangle whose
    [right()] and [bottom()] do not overflow ([left + width] and
    [top + height] below [2^32]) by [(dx, dy)] (each at most [2^62] in
    absolute value) on a non-empty image never panics; it returns the rectangle whose points are exactly the points of
    the image that lie in the translated rectangle, or [None] when there
    is no such point. *)
Theorem translate_rect_contains (img : image P) (r : rect) (dx dy : Z) :
  1 <= width img -> 1 <= height img ->
  1 <= Rect.width r -> 1 <= Rect.height r ->
  (Z.of_nat (Rect.left r + Rect.width r) < 2 ^ 32)%Z ->
  (Z.of_nat (Rect.top r + Rect.height r) < 2 ^ 32)%Z ->
  (Z.abs dx <= 2 ^ 62)%Z -> (Z.abs dy <= 2 ^ 62)%Z ->
  match translate_rect img r dx dy with
  | Some (Some t) => forall x y : nat,
      Rect.contains t x y = true <->
      x < width img /\ y < height img /\
      (Z.of_nat (Rect.left r) + dx <= Z.of_nat x <= Z.of_nat (Rect.right r) + dx)%Z /\
      (Z.of_nat (Rect.top r) + dy <= Z.of_nat y <= Z.of_nat (Rect.bottom r) + dy)%Z
  | Some None => forall x y : nat,
      ~ (x < width img /\ y < height img /\
         (Z.of_nat (Rect.left r) + dx <= Z.of_nat x <= Z.of_nat (Rect.right r) + dx)%Z /\
         (Z.of_nat (Rect.top r) + dy <= Z.of_nat y <= Z.of_nat (Rect.bottom r) + dy)%Z)
  | None => False
  end.
Proof.
  intros Hw Hh Hr1 Hr2 Hx Hy Hdx Hdy.
  unfold translate_rect, Rect.right, Rect.bottom.
  rewrite !i64_add_ok by lia. cbv zeta.
  destruct (Z.ltb_spec (Z.of_nat (Rect.left r) + dx) (Z.of_nat (width img))),
    (Z.ltb_spec (Z.of_nat (Rect.top r) + dy) (Z.of_nat (height img))),
    (Z.leb_spec 0 (Z.of_nat (Rect.left r + Rect.width r - 1) + dx)),
    (Z.leb_spec 0 (Z.of_nat (Rect.top r + Rect.height r - 1) + dy));
    cbn [andb]; try (intros x y; lia).
  destruct (translate_axis (width img) (Z.of_nat (Rect.left r) + dx)
    (Z.of_nat (Rect.left r + Rect.width r - 1) + dx)) as (Hx1 & Hx2 & Hx3); try lia.
  destruct (translate_axis (height img) (Z.of_nat (Rect.top r) + dy)
    (Z.of_nat (Rect.top r + Rect.height r - 1) + dy)) as (Hy1 & Hy2 & Hy3); try lia.
  rewrite (sub32_ok _ _ Hx1), (sub32_ok _ _ Hy1), (rect_new_ok _ _ _ _ Hx2 Hy2).
  intros x y. rewrite contains_spec. cbn [Rect.left Rect.top Rect.width Rect.height].
  rewrite Hx3, Hy3. tauto.
Qed.

End TranslateRect.

Lemma translate_rect_contains_witness :
  1 <= width width4_image /\ 1 <= height width4_image /\ 1 <= 3 /\ 1 <= 2 /\
  (Z.of_nat (1 + 3) < 2 ^ 32)%Z /\ (Z.of_nat (0 + 2) < 2 ^ 32)%Z /\
  (Z.abs (-2) <= 2 ^ 62)%Z /\ (Z.abs 0 <= 2 ^ 62)%Z /\
  match translate_rect width4_image (mk_rect 1 0 3 2) (-2) 0 with
  | Some (Some t) => forall x y : nat,
      Rect.contains t x y = true <->
      x < width width4_image /\ y < height width4_image /\
      (Z.of_nat (Rect.left (mk_rect 1 0 3 2)) + -2 <= Z.of_nat x
         <= Z.of_nat (Rect.right (mk_rect 1 0 3 2)) + -2)%Z /\
      (Z.of_nat (Rect.top (mk_rect 1 0 3 2)) + 0 <= Z.of_nat y
         <= Z.of_nat (Rect.bottom (mk_rect 1 0 3 2)) + 0)%Z
  | Some None => forall x y : nat,
      ~ (x < width width4_image /\ y < height width4_image /\
         (Z.of_nat (Rect.left (mk_rect 1 0 3 2)) + -2 <= Z.of_nat x
            <= Z.of_nat (Rect.right (mk_rect 1 0 3 2)) + -2)%Z /\
         (Z.of_nat (Rect.top (mk_rect 1 0 3 2)) + 0 <= Z.of_nat y
            <= Z.of_nat (Rect.bottom (mk_rect 1 0 3 2)) + 0)%Z)
  | None => False
  end.
Proof.
  split; [simpl; lia|]. split; [simpl; lia|]. split; [lia|]. split; [lia|].
  split; [simpl; lia|]. split; [simpl; lia|]. split; [simpl; lia|]. split; [simpl; lia|].
  apply (translate_rect_contains nat width4_image (mk_rect 1 0 3 2) (-2) 0); simpl; lia.
Defined.

(** [Image2D::sub_image] of a non-empty rectangle panics unless the
    rectangle fits the image; otherwise it is a [width x height] view whose
    pixel [(x, y)] is the pixel [(left + x, top + y)] of the image, and
    which has no pixel outside its own bounds. *)
Theorem sub_image_spec {P : Type} (img : image P) (r : rect) :
  1 <= Rect.width r -> 1 <= Rect.height r ->
  match sub_image img r with
  | Some s =>
      Rect.fits_image r (width img) (height img) = true /\
      width s = Rect.width r /\ height s = Rect.height r /\
      forall x y, get_pixel s x y =
        if (x <? Rect.width r) && (y <? Rect.height r)
        then get_pixel img (Rect.left r + x) (Rect.top r + y) else None
  | None => Rect.fits_image r (width img) (height img) = false
  end.
Proof.
  intros Hw Hh. unfold sub_image, Rect.fits_image, Rect.right, Rect.bottom.
  destruct ((Rect.top r <=? Rect.top r + Rect.height r - 1 + 1) &&
            (Rect.top r + Rect.height r - 1 + 1 <=? height img) &&
            (Rect.left r <=? Rect.left r + Rect.width r - 1 + 1) &&
            (Rect.left r + Rect.width r - 1 + 1 <=? width img)) eqn:E.
  - rewrite !andb_true_iff, !Nat.leb_le in E.
    replace (Rect.left r + Rect.width r - 1 + 1 - Rect.left r) with (Rect.width r) by lia.
    replace (Rect.top r + Rect.height r - 1 + 1 - Rect.top r) with (Rect.height r) by lia.
    split; [rewrite andb_true_iff, !Nat.ltb_lt; lia|].
    split; [reflexivity|]. split; [reflexivity|].
    intros x y. unfold get_pixel. cbn [width height pix].
    destruct (Nat.ltb_spec x (Rect.width r)), (Nat.ltb_spec y (Rect.height r));
      cbn [andb]; try reflexivity.
    replace (Rect.left r + x <? width img) with true by (symmetry; apply Nat.ltb_lt; lia).
    replace (Rect.top r + y <? height img) with true by (symmetry; apply Nat.ltb_lt; lia).
    reflexivity.
  - apply not_true_iff_false. rewrite andb_true_iff, !Nat.ltb_lt. intro F.
    rewrite <- not_true_iff_false in E. apply E.
    rewrite !andb_true_iff, !Nat.leb_le. lia.
Qed.

(** [Image2DMut::fill_rect] of a non-empty rectangle panics unless the
    rectangle fits the image; otherwise it keeps the dimensions, sets every
    pixel the rectangle contains to the value and leaves every other pixel
    unchanged. *)
Theorem fill_rect_spec {P : Type} (img : image P) (r : rect) (v : P) :
  1 <= Rect.width r -> 1 <= Rect.height r ->
  match fill_rect img r v with
  | Some out =>
      Rect.fits_image r (width img) (height img) = true /\
      width out = width img /\ height out = height img /\
      forall x y, get_pixel out x y =
        if Rect.contains r x y then Some v else get_pixel img x y
  | None => Rect.fits_image r (width img) (height img) = false
  end.
Proof.
  intros Hw Hh. unfold fill_rect.
  assert (Hs : slice_ok img r = Rect.fits_image r (width img) (height img)).
  { unfold slice_ok, Rect.fits_image, Rect.right, Rect.bottom.
    apply Bool.eq_iff_eq_true. rewrite !andb_true_iff, !Nat.leb_le, !Nat.ltb_lt. lia. }
  rewrite Hs. destruct (Rect.fits_image r (width img) (height img)) eqn:Ef; [|reflexivity].
  unfold Rect.fits_image, Rect.right, Rect.bottom in Ef.
  rewrite andb_true_iff, !Nat.ltb_lt in Ef.
  split; [reflexivity|]. rewrite assign_width, assign_height.
  split; [reflexivity|]. split; [reflexivity|].
  assert (Hc : forall x y, pix (assign img (map (fun q => (q, v)) (Rect.positions r))) x y =
                 if Rect.in_rect r x y then v else pix img x y).
  { apply assign_char.
    - intros x y v' Hin. apply in_map_iff in Hin as [q [Eq _]]. congruence.
    - intros x y. rewrite map_map, map_id, in_positions. reflexivity. }
  intros x y. unfold get_pixel. rewrite assign_width, assign_height, Hc.
  replace (Rect.contains r x y) with (Rect.in_rect r x y).
  - destruct (Rect.in_rect r x y) eqn:Ei; [|reflexivity].
    apply in_rect_spec in Ei.
    replace (x <? width img) with true by (symmetry; apply Nat.ltb_lt; lia).
    replace (y <? height img) with true by (symmetry; apply Nat.ltb_lt; lia).
    reflexivity.
  - apply Bool.eq_iff_eq_true. rewrite in_rect_spec, contains_spec. lia.
Qed.

(** [put_pixel] followed by [get_pixel]: a write out of bounds panics
    (as a read there does); a write in bounds keeps the dimensions, is read
    back at its position and changes no other pixel. *)
Theorem put_pixel_get_pixel {P : Type} (img : image P) x y (p : P) :
  match put_pixel img x y p with
  | Some out =>
      width out = width img /\ height out = height img /\
      get_pixel out x y = Some p /\
      forall x' y', (x' <> x \/ y' <> y) -> get_pixel out x' y' = get_pixel img x' y'
  | None => get_pixel img x y = None
  end.
Proof.
  unfold put_pixel, get_pixel.
  destruct ((x <? width img) && (y <? height img)) eqn:E; [|reflexivity].
  cbn [put width height pix fst snd]. rewrite E, !Nat.eqb_refl.
  repeat split; auto.
  intros x' y' Hne.
  destruct (Nat.eqb_spec x' x), (Nat.eqb_spec y' y); cbn [andb]; try reflexivity; lia.
Qed.

(** [ImageBuffer2D::from_vec(w, h, v)] fails exactly when [v] does not
    have [w * h] elements; otherwise the image is [w x h], iterates over
    [v] in order, and its pixel [(x, y)] is element [y * w + x] of [v]. *)
Theorem from_vec_spec {P : Type} (zero : P) w h (v : list P) :
  match from_vec zero w h v with
  | Ok img =>
      length v = w * h /\ width img = w /\ height img = h /\ iter img = v /\
      forall x y, get_pixel img x y = if x <? w then nth_error v (y * w + x) else None
  | Err => length v <> w * h
  end.
Proof.
  unfold from_vec, from_shape_vec.
  destruct (Nat.eqb_spec (length v) (h * w)) as [E|E]; [|lia].
  split; [lia|]. split; [reflexivity|]. split; [reflexivity|]. split.
  - rewrite iter_is_grid. cbn [width height pix]. apply grid_nth_list. exact E.
  - intros x y. unfold get_pixel. cbn [width height pix].
    destruct (Nat.ltb_spec x w); [|reflexivity].
    destruct (Nat.ltb_spec y h); cbn [andb].
    + symmetry. apply nth_error_nth'. nia.
    + symmetry. apply nth_error_None. nia.
Qed.

(** [PartialEq for Image2DRepr], given a pixel equality that decides
    equality: two images are equal exactly when they have the same
    dimensions and the same pixel at every position. *)
Theorem image_eq_spec {P : Type} (eqb : P -> P -> bool)
  (Heqb : forall a b, eqb a b = true <-> a = b) (a b : image P) :
  image_eq eqb a b = true <->
  width a = width b /\ height a = height b /\
  forall x y, get_pixel a x y = get_pixel b x y.
Proof.
  unfold image_eq. rewrite !andb_true_iff, !Nat.eqb_eq, iter_eq_spec by exact Heqb.
  rewrite !iter_is_grid. split.
  - intros [[Ew Eh] Ei]. split; [exact Ew|]. split; [exact Eh|].
    rewrite <- Ew, <- Eh in Ei.
    intros x y. unfold get_pixel. rewrite <- Ew, <- Eh.
    destruct (Nat.ltb_spec x (width a)), (Nat.ltb_spec y (height a)); cbn [andb]; auto.
    f_equal.
    rewrite <- (nth_grid (width a) (height a) (pix a) x y (pix a x y)) by lia.
    rewrite <- (nth_grid (width a) (height a) (pix b) x y (pix a x y)) by lia.
    rewrite Ei. reflexivity.
  - intros (Ew & Eh & Ep). split; [split; assumption|].
    rewrite <- Ew, <- Eh. unfold grid. f_equal.
    apply map_ext_in. intros y Hy. apply map_ext_in. intros x Hx.
    apply in_seq in Hx, Hy. specialize (Ep x y). unfold get_pixel in Ep.
    rewrite <- Ew, <- Eh in Ep.
    replace (x <? width a) with true in Ep by (symmetry; apply Nat.ltb_lt; lia).
    replace (y <? height a) with true in Ep by (symmetry; apply Nat.ltb_lt; lia).
    cbn [andb] in Ep. congruence.
Qed.

Lemma sub_image_spec_witness :
  1 <= 2 /\ 1 <= 1 /\
  match sub_image abcde_image (mk_rect 1 1 2 1) with
  | Some s =>
      Rect.fits_image (mk_rect 1 1 2 1) (width abcde_image) (height abcde_image) = true /\
      width s = Rect.width (mk_rect 1 1 2 1) /\ height s = Rect.height (mk_rect 1 1 2 1) /\
      forall x y, get_pixel s x y =
        if (x <? Rect.width (mk_rect 1 1 2 1)) && (y <? Rect.height (mk_rect 1 1 2 1))
        then get_pixel abcde_image (Rect.left (mk_rect 1 1 2 1) + x)
               (Rect.top (mk_rect 1 1 2 1) + y) else None
  | None => Rect.fits_image (mk_rect 1 1 2 1) (width abcde_image) (height abcde_image) = false
  end.
Proof.
  split; [lia|]. split; [lia|].
  apply (sub_image_spec abcde_image (mk_rect 1 1 2 1)); simpl; lia.
Defined.

Lemma fill_rect_spec_witness :
  1 <= 2 /\ 1 <= 1 /\
  match fill_rect abcde_image (mk_rect 3 0 2 1) 0 with
  | Some out =>
      Rect.fits_image (mk_rect 3 0 2 1) (width abcde_image) (height abcde_image) = true /\
      width out = width abcde_image /\ height out = height abcde_image /\
      forall x y, get_pixel out x y =
        if Rect.contains (mk_rect 3 0 2 1) x y then Some 0 else get_pixel abcde_image x y
  | None => Rect.fits_image (mk_rect 3 0 2 1) (width abcde_image) (height abcde_image) = false
  end.
Proof.
  split; [lia|]. split; [lia|].
  apply (fill_rect_spec abcde_image (mk_rect 3 0 2 1) 0); simpl; lia.
Defined.

Lemma image_eq_spec_witness :
  (forall a b, Nat.eqb a b = true <-> a = b) /\
  (image_eq Nat.eqb width4_image (mk_image 4 1 (fun x y => x + y)) = true <->
   width width4_image = width (mk_image 4 1 (fun x y => x + y)) /\
   height width4_image = height (mk_image 4 1 (fun x y => x + y)) /\
   forall x y, get_pixel width4_image x y = get_pixel (mk_image 4 1 (fun x y => x + y)) x y).
Proof.
  split; [intros a b; apply Nat.eqb_eq|].
  apply (image_eq_spec Nat.eqb (fun a b => Nat.eqb_eq a b)).
Defined.

(** [blit_rect] checks the sizes and both rectangles first: it fails
    exactly when the sizes differ or a rectangle does not fit its image;
    otherwise it keeps the destination's dimensions and copies the source
    rectangle onto the destination rectangle, pixel for pixel, leaving the
    rest of the destination unchanged. *)
Theorem blit_rect_get_pixel {P : Type} (self src : image P) (s d : rect) :
  1 <= Rect.width s -> 1 <= Rect.height s ->
  match blit_rect self s d src with
  | Some out =>
      Rect.size s = Rect.size d /\
      Rect.fits_image s (width src) (height src) = true /\
      Rect.fits_image d (width self) (height self) = true /\
      width out = width self /\ height out = height self /\
      forall x y, get_pixel out x y =
        if Rect.contains d x y
        then get_pixel src (Rect.left s + (x - Rect.left d)) (Rect.top s + (y - Rect.top d))
        else get_pixel self x y
  | None =>
      ~ (Rect.size s = Rect.size d /\
         Rect.fits_image s (width src) (height src) = true /\
         Rect.fits_image d (width self) (height self) = true)
  end.
Proof.
  intros Hw Hh.
  destruct (Rect.fits_image s (width src) (height src)) eqn:Fs;
  [destruct (Rect.fits_image d (width self) (height self)) eqn:Fd;
   [destruct ((Rect.width s =? Rect.width d) && (Rect.height s =? Rect.height d)) eqn:Hsz|]|].
  - apply andb_true_iff in Hsz as [Ew Eh]. apply Nat.eqb_eq in Ew, Eh.
    assert (Hsz : Rect.size s = Rect.size d) by (unfold Rect.size; congruence).
    pose proof Fs as Fs'. pose proof Fd as Fd'.
    unfold Rect.fits_image, Rect.right, Rect.bottom in Fs', Fd'.
    rewrite andb_true_iff, !Nat.ltb_lt in Fs', Fd'.
    destruct (blit_rect_ok self src s d Hsz) as (out & E & Ew' & Eh' & Hp); try lia.
    rewrite E. repeat split; try assumption.
    intros x y. unfold get_pixel. rewrite Ew', Eh', Hp.
    replace (Rect.contains d x y) with (Rect.in_rect d x y).
    + destruct (Rect.in_rect d x y) eqn:Ei; [|reflexivity].
      apply in_rect_spec in Ei.
      replace (x <? width self) with true by (symmetry; apply Nat.ltb_lt; lia).
      replace (y <? height self) with true by (symmetry; apply Nat.ltb_lt; lia).
      replace (Rect.left s + (x - Rect.left d) <? width src) with true
        by (symmetry; apply Nat.ltb_lt; lia).
      replace (Rect.top s + (y - Rect.top d) <? height src) with true
        by (symmetry; apply Nat.ltb_lt; lia).
      reflexivity.
    + apply Bool.eq_iff_eq_true. rewrite in_rect_spec, contains_spec. lia.
  - unfold blit_rect, Rect.size. rewrite Hsz. simpl.
    intros (E & _ & _). unfold Rect.size in E. injection E as E1 E2.
    rewrite E1, E2, !Nat.eqb_refl in Hsz. discriminate.
  - unfold blit_rect, Rect.size. rewrite Fs, Fd.
    destruct (_ && _); simpl; [|intros (_ & _ & H); discriminate].
    intros (_ & _ & H); discriminate.
  - unfold blit_rect, Rect.size. rewrite Fs.
    destruct (_ && _); simpl; intros (_ & H & _); discriminate.
Qed.

Lemma blit_rect_get_pixel_witness :
  1 <= 2 /\ 1 <= 1 /\
  match blit_rect abcde_image (mk_rect 1 0 2 1) (mk_rect 0 1 2 1) width4_image with
  | Some out =>
      Rect.size (mk_rect 1 0 2 1) = Rect.size (mk_rect 0 1 2 1) /\
      Rect.fits_image (mk_rect 1 0 2 1) (width width4_image) (height width4_image) = true /\
      Rect.fits_image (mk_rect 0 1 2 1) (width abcde_image) (height abcde_image) = true /\
      width out = width abcde_image /\ height out = height abcde_image /\
      forall x y, get_pixel out x y =
        if Rect.contains (mk_rect 0 1 2 1) x y
        then get_pixel width4_image (Rect.left (mk_rect 1 0 2 1) + (x - Rect.left (mk_rect 0 1 2 1)))
                                    (Rect.top (mk_rect 1 0 2 1) + (y - Rect.top (mk_rect 0 1 2 1)))
        else get_pixel abcde_image x y
  | None =>
      ~ (Rect.size (mk_rect 1 0 2 1) = Rect.size (mk_rect 0 1 2 1) /\
         Rect.fits_image (mk_rect 1 0 2 1) (width width4_image) (height width4_image) = true /\
         Rect.fits_image (mk_rect 0 1 2 1) (width abcde_image) (height abcde_image) = true)
  end.
Proof.
  split; [lia|]. split; [lia|].
  apply (blit_rect_get_pixel abcde_image width4_image (mk_rect 1 0 2 1) (mk_rect 0 1 2 1));
    simpl; lia.
Defined.

(** For a non-empty rectangle, [rect_iter] panics exactly when
    [sub_image] does, and otherwise yields the pixels of the sub-image in
    its scanline order. *)
Theorem rect_iter_sub_image {P : Type} (img : image P) (r : rect) :
  1 <= Rect.width r -> 1 <= Rect.height r ->
  rect_iter img r = option_map iter (sub_image img r).
Proof.
  intros Hw Hh. unfold sub_image, Rect.bottom, Rect.right.
  replace (Rect.top r + Rect.height r - 1 + 1) with (Rect.top r + Rect.height r) by lia.
  replace (Rect.left r + Rect.width r - 1 + 1) with (Rect.left r + Rect.width r) by lia.
  replace (Rect.top r <=? Rect.top r + Rect.height r) with true
    by (symmetry; apply Nat.leb_le; lia).
  replace (Rect.left r <=? Rect.left r + Rect.width r) with true
    by (symmetry; apply Nat.leb_le; lia).
  destruct (rect_iter img r) as [l|] eqn:E.
  - pose proof E as E'. unfold rect_iter, slice_ok in E'.
    destruct (_ && _) eqn:Hs; [|discriminate].
    apply andb_true_iff in Hs as [H1 H2]. rewrite H1, H2. simpl.
    f_equal. rewrite (rect_iter_grid img r l E), iter_is_grid.
    simpl. rewrite !Nat.add_sub_swap, !Nat.sub_diag by lia. reflexivity.
  - unfold rect_iter, slice_ok in E.
    destruct (_ && _) eqn:Hs; [discriminate|].
    apply andb_false_iff in Hs as [H|H]; rewrite H;
      [reflexivity|rewrite !andb_false_r; reflexivity].
Qed.

Lemma rect_iter_sub_image_witness :
  1 <= 2 /\ 1 <= 1 /\
  rect_iter abcde_image (mk_rect 1 1 2 1) = option_map iter (sub_image abcde_image (mk_rect 1 1 2 1)).
Proof.
  split; [lia|]. split; [lia|].
  apply (rect_iter_sub_image abcde_image (mk_rect 1 1 2 1)); simpl; lia.
Defined.

(** ** Padding ([core/padding.rs]) *)

(** [pad_constant] panics on an empty image and when the padded size
    [w + 2 s0] or [h + 2 s1] overflows [u32]; otherwise it returns the
    image enlarged by [s0] columns and [s1] rows on each side, with the
    source at offset [(s0, s1)] and the constant everywhere else. *)
Theorem pad_constant_spec {P : Type} (img : image P) s0 s1 (val : P) :
  (width img = 0 \/ height img = 0 -> Padding.pad_constant img (s0, s1) val = None) /\
  ((2 ^ 32 <= Z.of_nat (width img + 2 * s0))%Z \/
   (2 ^ 32 <= Z.of_nat (height img + 2 * s1))%Z ->
   Padding.pad_constant img (s0, s1) val = None) /\
  (1 <= width img -> 1 <= height img ->
   (Z.of_nat (width img + 2 * s0) < 2 ^ 32)%Z ->
   (Z.of_nat (height img + 2 * s1) < 2 ^ 32)%Z ->
   exists out, Padding.pad_constant img (s0, s1) val = Some out /\
   width out = width img + 2 * s0 /\ height out = height img + 2 * s1 /\
   forall X Y, get_pixel out X Y =
     if Rect.contains (mk_rect s0 s1 (width img) (height img)) X Y
     then get_pixel img (X - s0) (Y - s1)
     else if (X <? width img + 2 * s0) && (Y <? height img + 2 * s1) then Some val
     else None).
Proof.
  split; [|split].
  - apply pad_constant_empty.
  - apply pad_constant_overflow.
  - intros Hw Hh Bw Bh.
    destruct (pad_constant_ok img s0 s1 val) as (out & E & W & H & Pix); [lia | lia | assumption | assumption |].
    exists out. split; [exact E|]. split; [exact W|]. split; [exact H|].
    intros X Y. unfold get_pixel. rewrite W, H, Pix.
    replace (Rect.contains (mk_rect s0 s1 (width img) (height img)) X Y)
      with (Rect.in_rect (mk_rect s0 s1 (width img) (height img)) X Y)
      by (apply Bool.eq_iff_eq_true; rewrite in_rect_spec, contains_spec; simpl; lia).
    destruct (Rect.in_rect _ X Y) eqn:Ei; [|reflexivity].
    apply in_rect_spec in Ei. cbn [Rect.left Rect.top Rect.width Rect.height] in Ei.
    replace (X <? width img + 2 * s0) with true by (symmetry; apply Nat.ltb_lt; lia).
    replace (Y <? height img + 2 * s1) with true by (symmetry; apply Nat.ltb_lt; lia).
    replace (X - s0 <? width img) with true by (symmetry; apply Nat.ltb_lt; lia).
    replace (Y - s1 <? height img) with true by (symmetry; apply Nat.ltb_lt; lia).
    reflexivity.
Qed.

Lemma pad_constant_spec_witness :
  (width abcde_image = 0 \/ height abcde_image = 0 ->
   Padding.pad_constant abcde_image (1, 2) 9 = None) /\
  ((2 ^ 32 <= Z.of_nat (width abcde_image + 2 * 1))%Z \/
   (2 ^ 32 <= Z.of_nat (height abcde_image + 2 * 2))%Z ->
   Padding.pad_constant abcde_image (1, 2) 9 = None) /\
  (1 <= width abcde_image -> 1 <= height abcde_image ->
   (Z.of_nat (width abcde_image + 2 * 1) < 2 ^ 32)%Z ->
   (Z.of_nat (height abcde_image + 2 * 2) < 2 ^ 32)%Z ->
   exists out, Padding.pad_constant abcde_image (1, 2) 9 = Some out /\
   width out = width abcde_image + 2 * 1 /\ height out = height abcde_image + 2 * 2 /\
   forall X Y, get_pixel out X Y =
     if Rect.contains (mk_rect 1 2 (width abcde_image) (height abcde_image)) X Y
     then get_pixel abcde_image (X - 1) (Y - 2)
     else if (X <? width abcde_image + 2 * 1) && (Y <? height abcde_image + 2 * 2)
     then Some 9 else None).
Proof. exact (pad_constant_spec abcde_image 1 2 9). Defined.

(** [pad_wrap] with sizes [(s0, s1)], [1 <= s0 <= width] and
    [1 <= s1 <= height], not necessarily equal: every pixel of the padded
    image is the source pixel at its coordinates taken modulo the image
    dimensions (the image is tiled). *)
Theorem pad_wrap_rect {P : Type} (zero : P) (img : image P) s0 s1 :
  1 <= s0 -> 1 <= s1 -> s0 <= width img -> s1 <= height img ->
  (Z.of_nat (width img + 2 * s0) < 2 ^ 32)%Z -> (Z.of_nat (height img + 2 * s1) < 2 ^ 32)%Z ->
  exists out, Padding.pad_wrap zero img (s0, s1) = Some out /\
  width out = width img + 2 * s0 /\ height out = height img + 2 * s1 /\
  forall X Y, X < width img + 2 * s0 -> Y < height img + 2 * s1 ->
  pix out X Y = pix img (wrap_index (width img) s0 X) (wrap_index (height img) s1 Y).
Proof.
  intros H0 H1 Hw Hh Bw Bh. unfold Padding.pad_wrap, Padding.pad_zeros.
  cbv beta iota zeta.
  destruct (pad_constant_ok img s0 s1 zero) as (p0 & Ep0 & W0 & H0' & E0); [lia | lia | assumption | assumption |].
  rewrite Ep0. cbv beta iota.
  rewrite !sub32_ok by lia. cbv beta iota.
  rewrite !rect_new_ok by lia. unfold Padding.copy_subimage. cbv beta iota.
  do 8 pad_step.
  eexists. split; [reflexivity|]. split; [lia|]. split; [lia|].
  intros X Y HX HY. unfold_pix. unfold wrap_index. decide_rects.
Qed.

Lemma pad_wrap_rect_witness :
  1 <= 2 /\ 1 <= 1 /\ 2 <= width abcde_image /\ 1 <= height abcde_image /\
  (Z.of_nat (width abcde_image + 2 * 2) < 2 ^ 32)%Z /\
  (Z.of_nat (height abcde_image + 2 * 1) < 2 ^ 32)%Z /\
  exists out, Padding.pad_wrap 0 abcde_image (2, 1) = Some out /\
  width out = width abcde_image + 2 * 2 /\ height out = height abcde_image + 2 * 1 /\
  forall X Y, X < width abcde_image + 2 * 2 -> Y < height abcde_image + 2 * 1 ->
  pix out X Y = pix abcde_image (wrap_index (width abcde_image) 2 X)
                  (wrap_index (height abcde_image) 1 Y).
Proof.
  split; [lia|]. split; [lia|]. split; [simpl; lia|]. split; [simpl; lia|].
  split; [vm_compute; reflexivity|]. split; [vm_compute; reflexivity|].
  apply (pad_wrap_rect 0 abcde_image 2 1);
    [simpl; lia .. | vm_compute; reflexivity | vm_compute; reflexivity].
Defined.

(** [pad_mirror] with two different sizes always panics: one of its strip
    copies reads a source rectangle that does not fit the image. *)
Theorem pad_mirror_non_square {P : Type} (zero : P) (img : image P) s0 s1 :
  s0 <> s1 -> Padding.pad_mirror zero img (s0, s1) = None.
Proof.
  intro Hne.
  destruct (Nat.eq_dec s0 0); [apply pad_mirror_fails; lia|].
  destruct (Nat.eq_dec s1 0); [apply pad_mirror_fails; lia|].
  destruct (Nat.lt_ge_cases (width img) s0); [apply pad_mirror_fails; lia|].
  destruct (Nat.lt_ge_cases (height img) s1); [apply pad_mirror_fails; lia|].
  unfold Padding.pad_mirror, Padding.copy_and_mirror_subimage_both,
    Padding.copy_and_mirror_subimage_hor, Padding.copy_and_mirror_subimage_ver.
  cbv beta iota zeta.
  rewrite !sub32_ok by lia. cbv beta iota.
  destruct (Nat.lt_ge_cases s0 s1).
  - rewrite (rect_new_ok (width img - s0) 0 s1 (height img)) by lia.
    assert (F : slice_ok img (mk_rect (width img - s0) 0 s1 (height img)) = false).
    { unfold slice_ok. cbn [Rect.left Rect.top Rect.width Rect.height].
      apply andb_false_intro2. apply Nat.leb_gt. lia. }
    none_through ltac:(rewrite (mirror_copy_src_unfit _ _ _ _ _ _ _ F)).
  - rewrite (rect_new_ok 0 (height img - s1) (width img) s0) by lia.
    assert (F : slice_ok img (mk_rect 0 (height img - s1) (width img) s0) = false).
    { unfold slice_ok. cbn [Rect.left Rect.top Rect.width Rect.height].
      apply andb_false_intro1. apply Nat.leb_gt. lia. }
    none_through ltac:(rewrite (mirror_copy_src_unfit _ _ _ _ _ _ _ F)).
Qed.

Lemma pad_mirror_non_square_witness :
  1 <> 2 /\ Padding.pad_mirror 0 abcde_image (1, 2) = None.
Proof. split; [lia|]. apply (pad_mirror_non_square 0 abcde_image 1 2). lia. Defined.

(** [pad_replicate] with a vertical size smaller than the horizontal one
    always panics: its bottom strip is [size.0] rows high and does not fit
    the padded buffer. *)
Theorem pad_replicate_short_rows {P : Type} (zero : P) (img : image P) s0 s1 :
  s1 < s0 -> Padding.pad_replicate zero img (s0, s1) = None.
Proof.
  intro Hlt.
  destruct (Nat.eq_dec s1 0); [apply pad_replicate_fails; lia|].
  destruct (Nat.eq_dec (width img) 0) as [Hw|Hw].
  { unfold Padding.pad_replicate, Padding.pad_zeros.
    cbv beta iota zeta. rewrite pad_constant_empty by lia. reflexivity. }
  destruct (Nat.eq_dec (height img) 0) as [Hh|Hh].
  { unfold Padding.pad_replicate, Padding.pad_zeros.
    cbv beta iota zeta. rewrite pad_constant_empty by lia. reflexivity. }
  unfold Padding.pad_replicate. cbv beta iota zeta.
  repeat match goal with
  | |- match ?m with Some _ => _ | None => None end = None =>
      let E := fresh "E" in destruct m eqn:E; [|reflexivity]
  end.
  repeat match goal with
  | H : Padding.fill_corner _ _ _ _ _ _ = Some _ |- _ =>
      apply fill_corner_dims in H; destruct H
  | H : Padding.fill_view _ _ _ _ _ = Some _ |- _ =>
      apply fill_view_dims in H; destruct H
  | H : Rect.new s0 (height img + s1) (width img) s0 = Some _ |- _ =>
      rewrite rect_new_ok in H by lia; injection H as <-
  | H : Padding.pad_zeros zero img (s0, s1) = Some _ |- _ =>
      unfold Padding.pad_zeros in H; apply pad_constant_dims in H; destruct H
  end.
  unfold Padding.fill_view, slice_ok. cbn [Rect.left Rect.top Rect.width Rect.height].
  replace (height img + s1 + s0 <=? _) with false by (symmetry; apply Nat.leb_gt; lia).
  reflexivity.
Qed.

Lemma pad_replicate_short_rows_witness :
  1 < 2 /\ Padding.pad_replicate 0 abcde_image (2, 1) = None.
Proof. split; [lia|]. apply (pad_replicate_short_rows 0 abcde_image 2 1). lia. Defined.

(** [pad_replicate] with [1 <= s0 <= s1] on a non-empty image succeeds and
    replicates the nearest border pixel, except that its bottom strip
    covers only [s0] rows: below row [height + s1 + s0], between the side
    margins, the padded image keeps [P::zero()]. *)
Theorem pad_replicate_tall {P : Type} (zero : P) (img : image P) s0 s1 :
  1 <= s0 -> s0 <= s1 -> 1 <= width img -> 1 <= height img ->
  (Z.of_nat (width img + 2 * s0) < 2 ^ 32)%Z -> (Z.of_nat (height img + 2 * s1) < 2 ^ 32)%Z ->
  exists out, Padding.pad_replicate zero img (s0, s1) = Some out /\
  width out = width img + 2 * s0 /\ height out = height img + 2 * s1 /\
  forall X Y, X < width img + 2 * s0 -> Y < height img + 2 * s1 ->
  pix out X Y =
    if (s0 <=? X) && (X <? width img + s0) && (height img + s1 + s0 <=? Y) then zero
    else pix img (clamp_index (width img) s0 X) (clamp_index (height img) s1 Y).
Proof.
  intros H0 H1 Hw Hh Bw Bh. unfold Padding.pad_replicate, Padding.pad_zeros.
  cbv beta iota zeta.
  destruct (pad_constant_ok img s0 s1 zero) as (p0 & Ep0 & W0 & H0' & E0); [lia | lia | assumption | assumption |].
  rewrite Ep0. cbv beta iota.
  rewrite !sub32_ok by lia. cbv beta iota.
  rewrite !get_pixel_ok by lia. cbv beta iota.
  rewrite !row_ok, !col_ok by lia. cbv beta iota.
  rewrite !rect_new_ok by lia. cbv beta iota.
  do 8 pad_step.
  eexists. split; [reflexivity|]. split; [lia|]. split; [lia|].
  intros X Y HX HY. unfold_pix. unfold clamp_index.
  destruct (Nat.leb_spec s0 X), (Nat.ltb_spec X (width img + s0)),
    (Nat.leb_spec (height img + s1 + s0) Y); cbn [andb]; decide_rects;
    reflexivity.
Qed.

Lemma pad_replicate_tall_witness :
  1 <= 1 /\ 1 <= 2 /\ 1 <= width abcde_image /\ 1 <= height abcde_image /\
  (Z.of_nat (width abcde_image + 2 * 1) < 2 ^ 32)%Z /\
  (Z.of_nat (height abcde_image + 2 * 2) < 2 ^ 32)%Z /\
  exists out, Padding.pad_replicate 0 abcde_image (1, 2) = Some out /\
  width out = width abcde_image + 2 * 1 /\ height out = height abcde_image + 2 * 2 /\
  forall X Y, X < width abcde_image + 2 * 1 -> Y < height abcde_image + 2 * 2 ->
  pix out X Y =
    if (1 <=? X) && (X <? width abcde_image + 1) && (height abcde_image + 2 + 1 <=? Y) then 0
    else pix abcde_image (clamp_index (width abcde_image) 1 X) (clamp_index (height abcde_image) 2 Y).
Proof.
  split; [lia|]. split; [lia|]. split; [simpl; lia|]. split; [simpl; lia|].
  split; [vm_compute; reflexivity|]. split; [vm_compute; reflexivity|].
  apply (pad_replicate_tall 0 abcde_image 1 2);
    [simpl; lia .. | vm_compute; reflexivity | vm_compute; reflexivity].
Defined.

(** ** Raw constructor ([ImageBuffer2D::from_raw_vec]) *)

(** [from_raw_vec(w, h, v)] for a pixel type of [n] channels panics when
    [n = 0] ([chunks(0)]) or when [w * h] overflows [u32]; otherwise it
    fails exactly when the number of [n]-chunks of [v], [ceil(len / n)],
    is not [w * h], and pixel [(x, y)] is chunk [y * w + x] of [v],
    completed with zeros up to [n] channels. *)
Theorem from_raw_vec_spec {S : Type} (s_zero : S) n w h (v : list S) :
  (n = 0 -> from_raw_vec s_zero n w h v = None) /\
  (1 <= n -> (2 ^ 32 <= Z.of_nat (w * h))%Z -> from_raw_vec s_zero n w h v = None) /\
  (1 <= n -> (Z.of_nat (w * h) < 2 ^ 32)%Z ->
   match from_raw_vec s_zero n w h v with
   | Some (Ok img) =>
       (length v + n - 1) / n = w * h /\ width img = w /\ height img = h /\
       forall x y, get_pixel img x y =
         if (x <? w) && (y <? h)
         then Some (Pixel.from_slice s_zero n (firstn n (skipn ((y * w + x) * n) v)))
         else None
   | Some Err => (length v + n - 1) / n <> w * h
   | None => False
   end).
Proof.
  unfold from_raw_vec, chunks, mul32. split; [|split].
  - intros ->. reflexivity.
  - intros Hn Hwh.
    replace (n =? 0) with false by (symmetry; apply Nat.eqb_neq; lia).
    replace (Z.of_nat (w * h) <? 2 ^ 32)%Z with false by (symmetry; apply Z.ltb_ge; lia).
    reflexivity.
  - intros Hn Hwh.
    replace (n =? 0) with false by (symmetry; apply Nat.eqb_neq; lia).
    replace (Z.of_nat (w * h) <? 2 ^ 32)%Z with true by (symmetry; apply Z.ltb_lt; lia).
    cbv beta iota.
    pose proof (chunks_fuel_length n (length v) v Hn (le_n _)) as Hlen.
    rewrite Hlen.
    destruct (Nat.eqb_spec ((length v + n - 1) / n) (w * h)) as [E|E]; cbn [negb]; [|exact E].
    unfold from_shape_vec. rewrite length_map, Hlen.
    replace ((length v + n - 1) / n =? h * w) with true by (symmetry; apply Nat.eqb_eq; lia).
    split; [exact E|]. split; [reflexivity|]. split; [reflexivity|].
    intros x y. unfold get_pixel. cbn [width height pix].
    destruct (Nat.ltb_spec x w), (Nat.ltb_spec y h); cbn [andb]; try reflexivity.
    f_equal.
    rewrite <- (zip_assign_nil (repeat s_zero n)).
    change (Pixel.zip_assign (repeat s_zero n) []) with (Pixel.from_slice s_zero n []).
    rewrite map_nth. f_equal. apply chunks_fuel_nth. rewrite Hlen. nia.
Qed.

Lemma from_raw_vec_spec_witness :
  (3 = 0 -> from_raw_vec 0%Z 3 2 1 [1; 2; 3; 4; 5]%Z = None) /\
  (1 <= 3 -> (2 ^ 32 <= Z.of_nat (2 * 1))%Z -> from_raw_vec 0%Z 3 2 1 [1; 2; 3; 4; 5]%Z = None) /\
  (1 <= 3 -> (Z.of_nat (2 * 1) < 2 ^ 32)%Z ->
   match from_raw_vec 0%Z 3 2 1 [1; 2; 3; 4; 5]%Z with
   | Some (Ok img) =>
       (length [1; 2; 3; 4; 5]%Z + 3 - 1) / 3 = 2 * 1 /\ width img = 2 /\ height img = 1 /\
       forall x y, get_pixel img x y =
         if (x <? 2) && (y <? 1)
         then Some (Pixel.from_slice 0%Z 3 (firstn 3 (skipn ((y * 2 + x) * 3) [1; 2; 3; 4; 5]%Z)))
         else None
   | Some Err => (length [1; 2; 3; 4; 5]%Z + 3 - 1) / 3 <> 2 * 1
   | None => False
   end).
Proof. exact (from_raw_vec_spec 0%Z 3 2 1 [1; 2; 3; 4; 5]%Z). Defined.

(** When [v] holds exactly [w * h] pixels of [n >= 1] channels (and
    [w * h] fits in [u32]), [from_raw_vec] succeeds and the channels of
    its pixels, in iteration order, are [v] again. *)
Theorem from_raw_vec_round_trip {S : Type} (s_zero : S) n w h (v : list S) :
  1 <= n -> (Z.of_nat (w * h) < 2 ^ 32)%Z -> length v = w * h * n ->
  exists img, from_raw_vec s_zero n w h v = Some (Ok img) /\
  width img = w /\ height img = h /\ concat (iter img) = v.
Proof.
  intros Hn Hwh Hv. unfold from_raw_vec, chunks, mul32.
  replace (n =? 0) with false by (symmetry; apply Nat.eqb_neq; lia).
  replace (Z.of_nat (w * h) <? 2 ^ 32)%Z with true by (symmetry; apply Z.ltb_lt; lia).
  cbv beta iota.
  pose proof (chunks_fuel_length n (length v) v Hn (le_n _)) as Hlen.
  assert (Hk : (length v + n - 1) / n = w * h).
  { rewrite Hv. replace (w * h * n + n - 1) with ((w * h) * n + (n - 1)) by lia.
    rewrite Nat.div_add_l by lia. rewrite Nat.div_small by lia. lia. }
  rewrite Hlen, Hk, Nat.eqb_refl. cbn [negb].
  unfold from_shape_vec. rewrite length_map, Hlen, Hk.
  replace (w * h =? h * w) with true by (symmetry; apply Nat.eqb_eq; lia).
  eexists. split; [reflexivity|]. split; [reflexivity|]. split; [reflexivity|].
  rewrite iter_is_grid. cbn [width height pix].
  rewrite grid_nth_list by (rewrite length_map, Hlen, Hk; lia).
  rewrite map_ext_in with (g := fun c => c).
  - rewrite map_id. apply chunks_fuel_concat; lia.
  - intros c Hc. apply from_slice_full.
    apply (chunks_fuel_full n (length v) v (w * h) c); [lia | exact Hc].
Qed.

Lemma from_raw_vec_round_trip_witness :
  1 <= 3 /\ (Z.of_nat (2 * 1) < 2 ^ 32)%Z /\ length [1; 2; 3; 4; 5; 6]%Z = 2 * 1 * 3 /\
  exists img, from_raw_vec 0%Z 3 2 1 [1; 2; 3; 4; 5; 6]%Z = Some (Ok img) /\
  width img = 2 /\ height img = 1 /\ concat (iter img) = [1; 2; 3; 4; 5; 6]%Z.
Proof.
  split; [lia|]. split; [lia|]. split; [reflexivity|].
  apply (from_raw_vec_round_trip 0%Z 3 2 1 [1; 2; 3; 4; 5; 6]%Z); [lia | lia | reflexivity].
Defined.

(** ** Convolution ([processing/kernel.rs]) *)

Section ConvolveRuns.

Variables S T O : Type.
Variable s_zero s_min s_max : S.
Variable t_zero : T.
Variables t_add t_mul : T -> T -> T.
Variables t_le t_lt : T -> T -> bool.
Variable cast_st : S -> option T.
Variable cast_to : T -> option O.
Variable o_zero : O.
Variables n_channels n_out : nat.

Lemma fold_add_chunk_total (chs : list (list T)) (acc : list T) :
  (forall ch, In ch chs -> n_channels <= length ch) ->
  exists r, fold_opt (add_chunk T t_zero t_add n_channels) chs acc = Some r.
Proof.
  revert acc. induction chs as [|ch chs IH]; intros acc H; [eexists; reflexivity|].
  cbn [fold_opt]. unfold add_chunk at 1.
  destruct (list_opt_map_total
              (fun i => c <- nth_error ch i ;; Some (t_add (nth i acc t_zero) c))
              (seq 0 n_channels)) as (acc' & E & _).
  { intros i Hi. apply in_seq in Hi.
    destruct (nth_error ch i) eqn:Ei; [discriminate|].
    apply nth_error_None in Ei. specialize (H ch (or_introl eq_refl)). lia. }
  rewrite E. apply IH. intros; apply H; right; assumption.
Qed.

Lemma to_output_total (acc : list T) :
  (forall c, cast_st c <> None) ->
  (forall mn mx, cast_st s_min = Some mn -> cast_st s_max = Some mx -> t_le mn mx = true) ->
  to_output S T O s_min s_max t_zero t_le t_lt cast_st cast_to o_zero n_channels acc <> None.
Proof.
  intros Hc Hle. unfold to_output.
  destruct (cast_st s_max) as [mx|] eqn:Emx; [|exfalso; exact (Hc s_max Emx)].
  destruct (cast_st s_min) as [mn|] eqn:Emn; [|exfalso; exact (Hc s_min Emn)].
  destruct (list_opt_map_total
    (fun i => p_t <- Pixel.num_clamp t_le t_lt (nth i acc t_zero) mn mx ;;
              Some (cast_or_zero T O cast_to o_zero p_t)) (seq 0 n_channels)) as (o & E & _).
  { intros i _. unfold Pixel.num_clamp. rewrite (Hle mn mx eq_refl eq_refl). discriminate. }
  rewrite E. discriminate.
Qed.

(** [Kernel::convolve] with constant padding never panics on a non-empty
    image whose pixels (and the padding value) have [N_CHANNELS >= 1]
    channels, when every subpixel converts to [T],
    [T::from(S::min_value()) <= T::from(S::max_value())], and its [u32]
    sizes fit: the padded size [w + 2r], [h + 2r] and the capacity
    [(2r + 1)^2 N_CHANNELS] of [region_accu] are below [2^32]. It returns an
    image of the input's dimensions. *)
Theorem convolve_constant_runs (k : kernel T) (img : image (list S)) (p : list S) :
  1 <= width img -> 1 <= height img -> 1 <= n_channels ->
  (forall x y, x < width img -> y < height img -> length (pix img x y) = n_channels) ->
  length p = n_channels ->
  (forall c, cast_st c <> None) ->
  (forall mn mx, cast_st s_min = Some mn -> cast_st s_max = Some mx -> t_le mn mx = true) ->
  (Z.of_nat (width img + 2 * radius T k) < 2 ^ 32)%Z ->
  (Z.of_nat (height img + 2 * radius T k) < 2 ^ 32)%Z ->
  (Z.of_nat ((2 * radius T k + 1) * (2 * radius T k + 1) * n_channels) < 2 ^ 32)%Z ->
  exists out,
    convolve S T O s_zero s_min s_max t_zero t_add t_mul t_le t_lt cast_st cast_to
      o_zero n_channels n_out k img (Padding.Constant p) = Some out /\
    width out = width img /\ height out = height img.
Proof.
  intros Hw Hh Hn Himg Hp Hc Hle Bw Bh Bk.
  unfold convolve. cbn [Padding.apply].
  destruct (pad_constant_ok img (radius T k) (radius T k) p) as (padded & Ep & Wp & Hp' & Pp);
    [lia | lia | exact Bw | exact Bh |].
  rewrite Ep. cbv beta iota zeta.
  assert (Hd : (2 * radius T k + 1) * (2 * radius T k + 1) <=
               (2 * radius T k + 1) * (2 * radius T k + 1) * n_channels) by nia.
  rewrite (mul32_ok 2 (radius T k)) by lia. cbv beta iota.
  rewrite (add32_ok (2 * radius T k) 1) by lia. cbv beta iota.
  rewrite (mul32_ok (2 * radius T k + 1) (2 * radius T k + 1)) by lia. cbv beta iota.
  rewrite (mul32_ok _ n_channels) by exact Bk. cbv beta iota.
  assert (Hall : forall x y, x < width img -> y < height img ->
    conv_pixel S T O s_min s_max t_zero t_add t_mul t_le t_lt cast_st cast_to o_zero
      n_channels n_out k padded (width img) (height img) x y <> None).
  { intros x y Hx Hy. unfold conv_pixel, window_sums.
    rewrite rect_new_ok by lia. cbv beta iota.
    unfold crop_to_image. rewrite (rect_new_ok 0 0 (width img) (height img)) by lia.
    cbv beta iota.
    pose proof (intersection_spec (mk_rect x y (2 * radius T k + 1) (2 * radius T k + 1))
                  (mk_rect 0 0 (width img) (height img))) as Hi.
    cbn [Rect.width Rect.height] in Hi.
    specialize (Hi ltac:(lia) ltac:(lia) ltac:(lia) ltac:(lia)).
    destruct (Rect.intersection _ _) as [c|] eqn:Ec.
    2: { exfalso. specialize (Hi x y). rewrite contains_full in Hi by lia.
         unfold Rect.contains, Rect.right, Rect.bottom in Hi. cbn [Rect.left Rect.top Rect.width Rect.height] in Hi.
         rewrite !Nat.leb_refl in Hi.
         replace (x <=? x + (2 * radius T k + 1) - 1) with true in Hi
           by (symmetry; apply Nat.leb_le; lia).
         replace (y <=? y + (2 * radius T k + 1) - 1) with true in Hi
           by (symmetry; apply Nat.leb_le; lia).
         replace (x <? width img) with true in Hi by (symmetry; apply Nat.ltb_lt; lia).
         replace (y <? height img) with true in Hi by (symmetry; apply Nat.ltb_lt; lia).
         discriminate. }
    destruct Hi as (Hcw & Hch & Hcc).
    assert (Hin : forall X Y, Rect.in_rect c X Y = true -> X < width img /\ Y < height img).
    { intros X Y HXY.
      assert (E1 : Rect.contains c X Y = true)
        by (apply contains_spec; apply in_rect_spec in HXY; lia).
      rewrite Hcc, contains_full in E1 by lia.
      rewrite !andb_true_iff, !Nat.ltb_lt in E1. tauto. }
    assert (Hr : Rect.left c + Rect.width c <= width img /\ Rect.top c + Rect.height c <= height img).
    { destruct (Hin (Rect.left c + Rect.width c - 1) (Rect.top c + Rect.height c - 1)) as [H1 H2];
        [apply in_rect_spec; lia | lia]. }
    unfold rect_iter, slice_ok.
    replace (Rect.top c + Rect.height c <=? height padded) with true
      by (symmetry; apply Nat.leb_le; lia).
    replace (Rect.left c + Rect.width c <=? width padded) with true
      by (symmetry; apply Nat.leb_le; lia).
    cbn [andb]. cbv beta iota.
    set (window := map (fun '(X, Y) => pix padded X Y) (Rect.positions c)).
    assert (Hwin : forall q, In q window -> length q = n_channels).
    { intros q Hq. unfold window in Hq. apply in_map_iff in Hq as ([X Y] & <- & HXY).
      apply in_positions, Hin in HXY. rewrite Pp.
      destruct (Rect.in_rect _ X Y) eqn:E; [|exact Hp].
      apply in_rect_spec in E. cbn [Rect.left Rect.top Rect.width Rect.height] in E.
      apply Himg; lia. }
    unfold region_accu.
    destruct (list_opt_map_total
      (fun '(q, e) => list_opt (map (fun c0 => option_map (t_mul e) (cast_st c0)) q))
      (combine window (elems T k))) as (cs & Ecs & Fcs).
    { intros [q e] _. destruct (list_opt_map_total (fun c0 => option_map (t_mul e) (cast_st c0)) q)
        as (l & El & _).
      - intros c0 _. destruct (cast_st c0) eqn:E; [discriminate | exfalso; exact (Hc c0 E)].
      - cbv beta iota. rewrite El. discriminate. }
    rewrite Ecs. cbv beta iota.
    assert (Hcs : forall l, In l cs -> length l = n_channels).
    { intros l Hl. destruct (Forall2_in_r _ _ _ l Fcs Hl) as ([q e] & Hqe & Eqe).
      cbv beta iota in Eqe.
      destruct (list_opt_map_total (fun c0 => option_map (t_mul e) (cast_st c0)) q)
        as (l' & El' & Fl').
      { intros c0 _. destruct (cast_st c0) eqn:E; [discriminate | exfalso; exact (Hc c0 E)]. }
      rewrite El' in Eqe. injection Eqe as <-.
      rewrite <- (Forall2_length Fl'). apply Hwin. apply in_combine_l in Hqe. exact Hqe. }
    unfold chunks. replace (n_channels =? 0) with false by (symmetry; apply Nat.eqb_neq; lia).
    cbv beta iota.
    destruct (fold_add_chunk_total (chunks_fuel (length (concat cs)) n_channels (concat cs))
                (repeat t_zero n_channels)) as (acc & Eacc).
    { intros ch Hin1. rewrite (chunks_fuel_full n_channels (length (concat cs)) (concat cs) (length cs) ch); [lia| |exact Hin1].
      apply length_concat_const. exact Hcs. }
    rewrite Eacc.
    destruct (to_output S T O s_min s_max t_zero t_le t_lt cast_st cast_to o_zero n_channels acc)
      eqn:Eo; [discriminate|].
    exfalso. exact (to_output_total acc Hc Hle Eo). }
  rewrite (proj2 (forallb_forall _ _)).
  - eexists. split; [reflexivity|]. split; reflexivity.
  - intros [x y] Hxy. apply in_scan in Hxy. cbv beta iota.
    destruct (conv_pixel _ _ _ _ _ _ _ _ _ _ _ _ _ _ _ _ _ _ _ _ _) eqn:E; [reflexivity|].
    exfalso. apply (Hall x y); tauto.
Qed.

(** [Kernel::convolve] panics, whatever the kernel elements, when the
    padding step does: on an empty image, with a radius-0 kernel and
    replicate, wrap or mirror padding, and with wrap or mirror padding
    when the radius exceeds the image width or height. *)
Theorem convolve_padding_panics (k : kernel T) (img : image (list S))
  (pad : Padding.padding (list S)) :
  width img = 0 \/ height img = 0 \/
  (radius T k = 0 /\ (pad = Padding.Replicate \/ pad = Padding.Wrap \/ pad = Padding.Mirror)) \/
  ((pad = Padding.Wrap \/ pad = Padding.Mirror) /\
   (width img < radius T k \/ height img < radius T k)) ->
  convolve S T O s_zero s_min s_max t_zero t_add t_mul t_le t_lt cast_st cast_to
    o_zero n_channels n_out k img pad = None.
Proof.
  intro H. unfold convolve.
  enough (E : Padding.apply (repeat s_zero n_channels) pad img (radius T k, radius T k) = None)
    by (rewrite E; reflexivity).
  destruct H as [H | [H | [[H0 Hp] | [Hp Hr]]]].
  - apply padding_apply_empty. now left.
  - apply padding_apply_empty. now right.
  - destruct Hp as [-> | [-> | ->]]; cbn [Padding.apply].
    + apply pad_replicate_fails. now left.
    + apply pad_wrap_fails. now left.
    + apply pad_mirror_fails. now left.
  - destruct Hp as [-> | ->]; cbn [Padding.apply].
    + apply pad_wrap_fails. lia.
    + apply pad_mirror_fails. lia.
Qed.

End ConvolveRuns.

Lemma convolve_constant_runs_witness :
  1 <= width nine_image /\ 1 <= height nine_image /\ 1 <= 1 /\
  (forall x y, x < width nine_image -> y < height nine_image ->
     length (pix nine_image x y) = 1) /\
  length [0%Z] = 1 /\
  (forall c, q_of_Z c <> None) /\
  (forall mn mx, q_of_Z u8_min = Some mn -> q_of_Z u8_max = Some mx -> Qle_bool mn mx = true) /\
  (Z.of_nat (width nine_image + 2 * radius Q identity_kernel) < 2 ^ 32)%Z /\
  (Z.of_nat (height nine_image + 2 * radius Q identity_kernel) < 2 ^ 32)%Z /\
  (Z.of_nat ((2 * radius Q identity_kernel + 1) * (2 * radius Q identity_kernel + 1) * 1)
     < 2 ^ 32)%Z /\
  exists out, convolve_u8 identity_kernel nine_image (Padding.Constant [0%Z]) = Some out /\
    width out = width nine_image /\ height out = height nine_image.
Proof.
  assert (H1 : 1 <= width nine_image) by (simpl; lia).
  assert (H2 : 1 <= height nine_image) by (simpl; lia).
  assert (H3 : 1 <= 1) by lia.
  assert (H4 : forall x y, x < width nine_image -> y < height nine_image ->
                 length (pix nine_image x y) = 1) by (intros; reflexivity).
  assert (H5 : length [0%Z] = 1) by reflexivity.
  assert (H6 : forall c, q_of_Z c <> None) by (intros c; discriminate).
  assert (H7 : forall mn mx, q_of_Z u8_min = Some mn -> q_of_Z u8_max = Some mx ->
                 Qle_bool mn mx = true).
  { intros mn mx E1 E2. injection E1 as <-. injection E2 as <-. reflexivity. }
  assert (H8 : (Z.of_nat (width nine_image + 2 * radius Q identity_kernel) < 2 ^ 32)%Z)
    by (vm_compute; reflexivity).
  assert (H9 : (Z.of_nat (height nine_image + 2 * radius Q identity_kernel) < 2 ^ 32)%Z)
    by (vm_compute; reflexivity).
  assert (H10 : (Z.of_nat ((2 * radius Q identity_kernel + 1) *
                           (2 * radius Q identity_kernel + 1) * 1) < 2 ^ 32)%Z)
    by (vm_compute; reflexivity).
  repeat (split; [assumption|]).
  exact (convolve_constant_runs Z Q Z 0%Z u8_min u8_max 0%Q Qplus Qmult Qle_bool q_lt q_of_Z
           (cast_q_int u8_min u8_max) 0%Z 1 1 identity_kernel nine_image [0%Z]
           H1 H2 H3 H4 H5 H6 H7 H8 H9 H10).
Defined.

Lemma convolve_padding_panics_witness :
  (width pix200_image = 0 \/ height pix200_image = 0 \/
   (radius Q one_kernel = 0 /\
    ((Padding.Wrap : Padding.padding (list Z)) = Padding.Replicate \/
     (Padding.Wrap : Padding.padding (list Z)) = Padding.Wrap \/
     (Padding.Wrap : Padding.padding (list Z)) = Padding.Mirror)) \/
   (((Padding.Wrap : Padding.padding (list Z)) = Padding.Wrap \/
     (Padding.Wrap : Padding.padding (list Z)) = Padding.Mirror) /\
    (width pix200_image < radius Q one_kernel \/ height pix200_image < radius Q one_kernel))) /\
  convolve_u8 one_kernel pix200_image Padding.Wrap = None.
Proof.
  assert (H : width pix200_image = 0 \/ height pix200_image = 0 \/
   (radius Q one_kernel = 0 /\
    ((Padding.Wrap : Padding.padding (list Z)) = Padding.Replicate \/
     (Padding.Wrap : Padding.padding (list Z)) = Padding.Wrap \/
     (Padding.Wrap : Padding.padding (list Z)) = Padding.Mirror)) \/
   (((Padding.Wrap : Padding.padding (list Z)) = Padding.Wrap \/
     (Padding.Wrap : Padding.padding (list Z)) = Padding.Mirror) /\
    (width pix200_image < radius Q one_kernel \/ height pix200_image < radius Q one_kernel))).
  { right; right; left. split; [reflexivity | right; left; reflexivity]. }
  split; [exact H|].
  exact (convolve_padding_panics Z Q Z 0%Z u8_min u8_max 0%Q Qplus Qmult Qle_bool q_lt q_of_Z
           (cast_q_int u8_min u8_max) 0%Z 1 1 one_kernel pix200_image Padding.Wrap H).
Defined.

(** ** Pixel methods ([core/pixel_types.rs]) *)

(** [Pixel::map] on a pixel of [n] channels applies the function to each
    channel in place, so two maps compose into one. *)
Theorem pixel_map_spec {A : Type} (zero : A) n (data : list A) (f g : A -> A) :
  length data = n ->
  pixel_map zero n data f = map f data /\
  pixel_map zero n (pixel_map zero n data g) f = pixel_map zero n data (fun a => f (g a)).
Proof.
  intros Hn.
  assert (Hm : forall l h, length l = n -> pixel_map zero n l h = map h l).
  { intros l h Hl. apply (from_slice_full zero n (map h l)). rewrite length_map. exact Hl. }
  split; [apply Hm; exact Hn|].
  rewrite (Hm data g Hn), (Hm (map g data) f) by (rewrite length_map; exact Hn).
  rewrite (Hm data _ Hn), map_map. reflexivity.
Qed.

Lemma pixel_map_spec_witness :
  length [1; 2; 3] = 3 /\
  pixel_map 0 3 [1; 2; 3] S = map S [1; 2; 3] /\
  pixel_map 0 3 (pixel_map 0 3 [1; 2; 3] (Nat.mul 2)) S = pixel_map 0 3 [1; 2; 3] (fun a => S (Nat.mul 2 a)).
Proof.
  split; [reflexivity|].
  apply (pixel_map_spec 0 3 [1; 2; 3] S (Nat.mul 2)). reflexivity.
Defined.

Lemma fold_and_forallb {A : Type} (p : A -> bool) (l : list A) acc :
  fold_left (fun acc b => b && acc) (map p l) acc = forallb p l && acc.
Proof.
  revert acc. induction l as [|a l IH]; intro acc; [reflexivity|].
  simpl. rewrite IH. destruct (p a), (forallb p l), acc; reflexivity.
Qed.

(** [is_zero] of a pixel holds exactly when every channel is zero; so
    [zero()] of a pixel type with at least one channel is zero exactly when
    the subpixel zero is. *)
Theorem pixel_is_zero_spec {A : Type} (zero : A) (sub_is_zero : A -> bool) (data : list A) n :
  pixel_is_zero sub_is_zero data = forallb sub_is_zero data /\
  pixel_is_zero sub_is_zero (pixel_zero zero n) = (n =? 0) || sub_is_zero zero.
Proof.
  unfold pixel_is_zero. rewrite !fold_and_forallb, !andb_true_r. split; [reflexivity|].
  unfold pixel_zero. induction n as [|n IH]; [reflexivity|].
  simpl. rewrite IH. destruct (sub_is_zero zero), n; reflexivity.
Qed.
